(** * EMPS_Spark: the chart data layer of [presenters/chart_generator.py]

    A shallow embedding of the three chart builders
    [generate_market_chart], [generate_multi_market_chart] and
    [generate_comparison_chart], and the properties of the series they
    hand to the plotting library.

    Conventions of the embedding:
    - Python floats are IEEE-754 binary64 values, taken from the
      standard library's executable specification [SpecFloat]
      ([prec = 53], [emax = 1024]); the numeric fields of a row are such
      values (an [int] operand of [* 0.25], [/ 4.0] or [/ 1000.0] is
      first converted to one), and so is the [int] default [0] of
      [.get];
    - [delivery_date] is the ISO text of the date, [block_index] and
      [slot_index] are integers;
    - a row ([Dict[str, Any]]) is a record of the keys the code reads; a
      key that the code reads with [.get] somewhere is an [option] field,
      a key that is only ever subscripted is a plain field;
    - [r[k]] on an absent key raises [KeyError]: fallible code lives in
      the [result] monad;
    - a figure is its title and the list of traces in the order of the
      [add_trace] calls; colours, hover templates and axis styling are
      left out of a trace, but a hover template that is built by
      [str.format] is evaluated for its [KeyError];
    - of [presenters/enhanced_response_builder.py] the computing part is
      embedded: [_minify] on the code points of the text, and the badge,
      the year-over-year change and the bid ratio that the panels
      display; the markup around them is left out. *)

From Stdlib Require Import ZArith Lia Floats.SpecFloat.
From Stdlib Require Import Sorting.Sorted Sorting.Permutation.
From Stdlib Require Import Structures.OrderedTypeEx.
From stdpp Require Import base option list sorting strings pretty gmap.

Open Scope Z_scope.

(** ** Python values and control *)

Module Py.

(** *** Exceptions *)

Inductive exn : Type :=
| KeyError (key : string).

Inductive result (A : Type) : Type :=
| Ok (a : A)
| Raise (e : exn).
Arguments Ok {A} a.
Arguments Raise {A} e.

#[global] Instance result_ret : MRet result := fun A a => Ok a.
#[global] Instance result_bind : MBind result := fun A B f m =>
  match m with
  | Ok a => f a
  | Raise e => Raise e
  end.

(** [d[k]] *)
Definition subscript {A} (k : string) (field : option A) : result A :=
  match field with
  | Some v => Ok v
  | None => Raise (KeyError k)
  end.

(** [d.get(k, dflt)] *)
Definition get {A} (field : option A) (dflt : A) : A := default dflt field.

(** *** Floats *)

Definition prec : Z := 53.
Definition emax : Z := 1024.
Abbreviation float := spec_float.

Definition fmul : float -> float -> float := SFmul prec emax.
Definition fdiv : float -> float -> float := SFdiv prec emax.
Definition flt : float -> float -> bool := SFltb.
Definition is_float (x : float) : Prop := valid_binary prec emax x = true.

(** Integer literals and integer-valued float literals. *)
Definition float_of_Z (z : Z) : float := binary_normalize prec emax z 0 false.

(** [2 ^ 52]: the mantissa of a power of two. *)
Definition M52 : positive := 4503599627370496.

(** The literals [0.25], [4.0], [1000.0] and [0]. *)
Definition f_0_25 : float := S754_finite false M52 (-54).
Definition f_4_0 : float := S754_finite false M52 (-50).
Definition f_1000_0 : float := S754_finite false 8796093022208000 (-43).
Definition f_0 : float := S754_zero false.

(** *** Comparison of the sort keys

    [str < str] is the lexicographic order on code points, [int < int]
    the order of [Z]; a tuple compares by its first differing
    component. *)

Definition tuple_lt (a b : string * Z) : bool :=
  if String.eqb a.1 b.1 then
    if Z.eqb a.2 b.2 then false else Z.ltb a.2 b.2
  else String.ltb a.1 b.1.

(** *** [sorted(l, key=...)]

    The builtin is a stable sort that compares keys with [<] only. It
    is modelled by stable insertion: the head of the input goes in
    front of the first sorted element that is not smaller than it. *)

Fixpoint insort {A K : Type} (key : A -> K) (lt : K -> K -> bool)
    (x : A) (l : list A) : list A :=
  match l with
  | [] => [x]
  | y :: l' => if lt (key y) (key x) then y :: insort key lt x l' else x :: y :: l'
  end.

Definition sorted {A K : Type} (key : A -> K) (lt : K -> K -> bool)
    (l : list A) : list A :=
  foldr (insort key lt) [] l.

(** *** [str.format]

    [template.format(name=value, ...)] reads the template from the left. The
    doubled braces stand for one brace; an opening brace starts a
    replacement field, whose name runs up to the closing brace or to the
    first of [:], [!], [.] and the opening bracket, and which ends at
    the closing brace. A field whose name is no keyword argument raises
    [KeyError(name)], the leftmost such field first. Of the call this is
    what is modelled: the names of the fields and the first missing
    one; the text that is returned is not, nor are fields without a name
    or with a number for a name, which the templates of the source do
    not hold. *)

(** [c] is the character of code [n]. *)
Definition is_chr (n : nat) (c : Ascii.ascii) : bool :=
  Nat.eqb (Ascii.nat_of_ascii c) n.

Inductive format_state : Type :=
| InText
| AfterBrace
| InName (name : string)
| InSpec.

Fixpoint format_fields_from (st : format_state) (template : string) : list string :=
  match template with
  | EmptyString => []
  | String c rest =>
      let in_name := fun name : string =>
        if is_chr 125 c then name :: format_fields_from InText rest
        else if is_chr 58 c || is_chr 33 c || is_chr 46 c || is_chr 91 c
             then name :: format_fields_from InSpec rest
        else format_fields_from (InName (name +:+ String c EmptyString)) rest in
      match st with
      | InText => format_fields_from (if is_chr 123 c then AfterBrace else InText) rest
      | AfterBrace =>
          if is_chr 123 c then format_fields_from InText rest
          else in_name EmptyString
      | InName name => in_name name
      | InSpec => format_fields_from (if is_chr 125 c then InText else InSpec) rest
      end
  end.

(** The names of the replacement fields, from the left. *)
Definition format_fields (template : string) : list string :=
  format_fields_from InText template.

Fixpoint first_missing (kwargs names : list string) : option string :=
  match names with
  | [] => None
  | name :: names' =>
      if existsb (String.eqb name) kwargs then first_missing kwargs names'
      else Some name
  end.

(** [template.format(...)], the arguments by their keywords. *)
Definition str_format (template : string) (kwargs : list string) : result unit :=
  match first_missing kwargs (format_fields template) with
  | None => Ok tt
  | Some name => Raise (KeyError name)
  end.

End Py.

Import Py.

(** ** The data model *)

(** One delivery interval of one market. [block_index] and [slot_index]
    are read with [.get] by the sort key. *)
Record Row : Type := {
  delivery_date : string;
  block_index : option Z;
  slot_index : option Z;
  mcv_mw : float;
  price_avg : float;
  purchase_bid_mw : float;
  sell_bid_mw : float
}.

(** A per-market summary of one year; both keys are read with [.get]. *)
Record Summary : Type := {
  total_volume_gwh : option float;
  twap : option float
}.

Inductive trace_kind : Type := Bar | Scatter.

(** A trace as passed to [fig.add_trace]. [t_faded] is [opacity=0.25];
    [t_secondary_y] and [t_col] place the trace ([secondary_y=...],
    [col=...]). *)
Record Trace : Type := {
  t_kind : trace_kind;
  t_name : string;
  t_x : list string;
  t_y : list float;
  t_faded : bool;
  t_secondary_y : bool;
  t_col : nat
}.

Record Figure : Type := {
  fig_title : string;
  fig_subtitle : option string;
  fig_data : list Trace
}.

(** ** [presenters/chart_generator.py] *)

Module ChartGenerator.

(** [lambda x: (x['delivery_date'],
                x.get('block_index', x.get('slot_index', 0)))] *)
Definition sort_key (x : Row) : string * Z :=
  (delivery_date x, get (block_index x) (get (slot_index x) 0)).

Definition sort_rows : list Row -> list Row := sorted sort_key tuple_lt.

(** [f"{r['delivery_date']} S-{r['slot_index']}"] *)
Definition slot_label (r : Row) : result string :=
  i ← subscript "slot_index" (slot_index r);
  mret (delivery_date r +:+ " S-" +:+ pretty i).

(** [f"{r['delivery_date']} H-{r.get('block_index', 0)}"] *)
Definition block_label (r : Row) : string :=
  delivery_date r +:+ " H-" +:+ pretty (get (block_index r) 0).

(** [r['price_avg'] / 1000.0] *)
Definition price_per_kwh (r : Row) : float := fdiv (price_avg r) f_1000_0.

(** The five parallel sequences of the data preparation. *)
Record Series : Type := {
  x_vals : list string;
  volumes : list float;
  prices : list float;
  buy_bids : list float;
  sell_bids : list float
}.

(** Lines 80-90: the data preparation of [generate_market_chart]. *)
Definition market_series (rows : list Row) (is_quarterly : bool) : result Series :=
  let rows := sort_rows rows in
  '(x_vals, volumes) ←
    (if is_quarterly then
       x_vals ← mapM slot_label rows;
       mret (x_vals, map (fun r => fmul (mcv_mw r) f_0_25) rows)
     else
       mret (map block_label rows, map (fun r => fdiv (mcv_mw r) f_4_0) rows));
  let prices := map price_per_kwh rows in
  let buy_bids := map purchase_bid_mw rows in
  let sell_bids := map sell_bid_mw rows in
  mret {| x_vals := x_vals; volumes := volumes; prices := prices;
          buy_bids := buy_bids; sell_bids := sell_bids |}.

(** Lines 93-147: the four traces, in the order they are added. *)
Definition market_figure (market_name time_label : string) (s : Series) : Figure :=
  {| fig_title := market_name +:+ " Price & Volume";
     fig_subtitle := Some time_label;
     fig_data :=
       [ {| t_kind := Bar; t_name := "Volume"; t_x := x_vals s; t_y := volumes s;
            t_faded := false; t_secondary_y := false; t_col := 1 |};
         {| t_kind := Scatter; t_name := "Buy Bids"; t_x := x_vals s; t_y := buy_bids s;
            t_faded := false; t_secondary_y := true; t_col := 1 |};
         {| t_kind := Scatter; t_name := "Sell Bids"; t_x := x_vals s; t_y := sell_bids s;
            t_faded := false; t_secondary_y := true; t_col := 1 |};
         {| t_kind := Scatter; t_name := "Price"; t_x := x_vals s; t_y := prices s;
            t_faded := false; t_secondary_y := true; t_col := 1 |} ] |}.

Definition generate_market_chart (market_name time_label : string)
    (rows : list Row) (is_quarterly : bool) : result (option Figure) :=
  match rows with
  | [] => mret None
  | _ =>
      s ← market_series rows is_quarterly;
      mret (Some (market_figure market_name time_label s))
  end.

(** One turn of the loop of [generate_multi_market_chart]: [None] is
    the [continue] of a market without rows. *)
Definition market_trace (market_name : string) (rows : list Row)
    (is_quarterly : bool) : result (option Trace) :=
  match rows with
  | [] => mret None
  | _ =>
      let rows := sort_rows rows in
      x_vals ← (if is_quarterly then mapM slot_label rows
                else mret (map block_label rows));
      let prices := map price_per_kwh rows in
      mret (Some {| t_kind := Scatter; t_name := market_name; t_x := x_vals;
                    t_y := prices; t_faded := false; t_secondary_y := false;
                    t_col := 1 |})
  end.

(** [for market_name, rows in market_data.items(): ...], the traces
    added so far being [data]. *)
Fixpoint multi_market_loop (items : list (string * list Row))
    (is_quarterly : bool) (data : list Trace) : result (list Trace) :=
  match items with
  | [] => mret data
  | (market_name, rows) :: items' =>
      t ← market_trace market_name rows is_quarterly;
      multi_market_loop items' is_quarterly
        (match t with Some tr => data ++ [tr] | None => data end)
  end.

(** [market_data] is a dict in insertion order: the list of its items,
    with pairwise distinct keys. *)
Definition generate_multi_market_chart (market_data : list (string * list Row))
    (time_label : string) (is_quarterly : bool) : result (option Figure) :=
  match market_data with
  | [] => mret None
  | _ =>
      data ← multi_market_loop market_data is_quarterly [];
      mret (Some {| fig_title := "Market Comparison";
                    fig_subtitle := Some time_label;
                    fig_data := data |})
  end.

Definition markets : list string := ["DAM"; "GDAM"; "RTM"].

(** The [{}] default of [current_data.get(market, {})]. *)
Definition empty_summary : Summary :=
  {| total_volume_gwh := None; twap := None |}.

Definition comparison_bar (name market : string) (value : float)
    (faded : bool) (col : nat) : Trace :=
  {| t_kind := Bar; t_name := name; t_x := [market]; t_y := [value];
     t_faded := faded; t_secondary_y := false; t_col := col |}.

(** Lines 199-248, the four [add_trace] calls of one market: current and
    previous volume in column 1, current and previous price in column
    2. The hover templates of the current-year bars are f-strings with
    escaped braces; those of the previous-year bars (lines 218 and 244)
    are built by [str.format] with the one keyword [year_minus], before
    the bar they belong to is. *)
Definition comparison_bars (market : string) (curr prev : Summary) (year : Z)
    : result (list Trace) :=
  let bar1 := comparison_bar (market +:+ " '" +:+ pretty year) market
                (get (total_volume_gwh curr) f_0) false 1 in
  _ ← str_format "%{x} {year_minus}: %{y:.2f} GWh<extra></extra>" ["year_minus"];
  let bar2 := comparison_bar (market +:+ " '" +:+ pretty (year - 1)) market
                (get (total_volume_gwh prev) f_0) true 1 in
  let bar3 := comparison_bar market market (get (twap curr) f_0) false 2 in
  _ ← str_format "%{x} {year_minus}: ₹%{y:.2f}/kWh<extra></extra>" ["year_minus"];
  let bar4 := comparison_bar (market +:+ " Prev") market
                (get (twap prev) f_0) true 2 in
  mret [bar1; bar2; bar3; bar4].

(** The body of [for market in markets], on the state
    [(fig.data, has_data)]. *)
Definition comparison_step (current_data previous_data : gmap string Summary)
    (year : Z) (st : list Trace * bool) (market : string)
    : result (list Trace * bool) :=
  let curr := default empty_summary (current_data !! market) in
  let prev := default empty_summary (previous_data !! market) in
  if flt f_0 (get (total_volume_gwh curr) f_0) then
    bars ← comparison_bars market curr prev year;
    mret (st.1 ++ bars, true)
  else mret st.

Fixpoint comparison_loop (current_data previous_data : gmap string Summary)
    (year : Z) (l : list string) (st : list Trace * bool)
    : result (list Trace * bool) :=
  match l with
  | [] => mret st
  | market :: l' =>
      st' ← comparison_step current_data previous_data year st market;
      comparison_loop current_data previous_data year l' st'
  end.

Definition generate_comparison_chart (current_data previous_data : gmap string Summary)
    (year : Z) : result (option Figure) :=
  '(data, has_data) ←
    comparison_loop current_data previous_data year markets ([], false);
  if has_data : bool then
    mret (Some {| fig_title := "Year-over-Year Performance"; fig_subtitle := None;
                  fig_data := data |})
  else mret None.

End ChartGenerator.

Import ChartGenerator.

(** ** Sample rows *)

Definition row (d : string) (blk slt : option Z) (mcv price buy sell : Z) : Row :=
  {| delivery_date := d; block_index := blk; slot_index := slt;
     mcv_mw := float_of_Z mcv; price_avg := float_of_Z price;
     purchase_bid_mw := float_of_Z buy; sell_bid_mw := float_of_Z sell |}.

(** ** Vocabulary of the statements *)

(** [x] may stand in front of [y]: the key of [y] is not smaller. *)
Definition key_le {A K : Type} (key : A -> K) (lt : K -> K -> bool) (x y : A) : Prop :=
  lt (key y) (key x) = false.

(** The elements carrying the key [k], in their order of appearance. *)
Definition with_key {A K : Type} `{EqDecision K} (key : A -> K) (k : K)
    (l : list A) : list A :=
  filter (fun x => key x = k) l.

(** Ascending on [(delivery_date, index)]: the date is smaller, or the
    dates agree and the index is not larger. *)
Definition lex_le (a b : string * Z) : Prop :=
  String.ltb a.1 b.1 = true \/ (a.1 = b.1 /\ a.2 <= b.2).

(** A row may stand in front of another. *)
Definition row_le (x y : Row) : Prop := lex_le (sort_key x) (sort_key y).

(** The rows with the sort key [k], in their order of appearance. *)
Definition rows_with_key (k : string * Z) (rows : list Row) : list Row :=
  filter (fun r => sort_key r = k) rows.

(** The row has a [slot_index]. *)
Definition has_slot (r : Row) : Prop := is_Some (slot_index r).

(** The label the quarterly branch builds for a row with a slot. *)
Definition labelled_slot (r : Row) (x : string) : Prop :=
  exists i, slot_index r = Some i /\ x = delivery_date r +:+ " S-" +:+ pretty i.

(** The volume of a row under either granularity. *)
Definition volume_mwh (is_quarterly : bool) (r : Row) : float :=
  if is_quarterly then fmul (mcv_mw r) f_0_25 else fdiv (mcv_mw r) f_4_0.

(** [x] is the x-axis label of the row [r]. *)
Definition labelled (is_quarterly : bool) (r : Row) (x : string) : Prop :=
  if is_quarterly then labelled_slot r x else x = block_label r.

(** The series [s] lists, index by index, what the rows [rows] give. *)
Definition series_of (is_quarterly : bool) (rows : list Row) (s : Series) : Prop :=
  Forall2 (labelled is_quarterly) rows (x_vals s) /\
  volumes s = map (volume_mwh is_quarterly) rows /\
  prices s = map price_per_kwh rows /\
  buy_bids s = map purchase_bid_mw rows /\
  sell_bids s = map sell_bid_mw rows.

(** The trace [tr] is the price line of the market [name]. *)
Definition trace_of (is_quarterly : bool) (name : string) (rows : list Row)
    (tr : Trace) : Prop :=
  t_kind tr = Scatter /\ t_name tr = name /\
  Forall2 (labelled is_quarterly) (sort_rows rows) (t_x tr) /\
  t_y tr = map price_per_kwh (sort_rows rows).

(** The market has rows. *)
Definition has_rows (item : string * list Row) : bool :=
  match item.2 with [] => false | _ => true end.

(** Every market's trace (or [None] for a skipped market), in order. *)
Definition traces_of (is_quarterly : bool) (items : list (string * list Row))
    (ts : list (option Trace)) : Prop :=
  Forall2 (fun item t => market_trace item.1 item.2 is_quarterly = Ok t) items ts.

(** The current-year volume the guard of the loop looks at. *)
Definition current_volume (current_data : gmap string Summary) (market : string) : float :=
  get (total_volume_gwh (default empty_summary (current_data !! market))) f_0.

(** The guard [curr.get('total_volume_gwh', 0) > 0]. *)
Definition included (current_data : gmap string Summary) (market : string) : bool :=
  flt f_0 (current_volume current_data market).

(** The sort key as the specification words it: the index of a row is
    its [slot_index] for quarterly data and its [block_index] otherwise,
    0 when absent. *)
Definition spec_sort_key (is_quarterly : bool) (r : Row) : string * Z :=
  (delivery_date r,
   if is_quarterly then get (slot_index r) 0 else get (block_index r) 0).

Definition spec_sort_rows (is_quarterly : bool) : list Row -> list Row :=
  sorted (spec_sort_key is_quarterly) tuple_lt.

(** A row carries the index of its granularity only: no [block_index]
    on quarterly data, no [slot_index] without a [block_index] on
    hourly data. *)
Definition single_index (is_quarterly : bool) (r : Row) : Prop :=
  if is_quarterly then block_index r = None
  else slot_index r = None \/ is_Some (block_index r).

Definition rows_both_indices : list Row :=
  [ row "2024-01-01" (Some 1) (Some 2) 100 2000 10 20;
    row "2024-01-01" (Some 2) (Some 1) 100 3000 10 20 ].

(** Quarterly rows of one date and one slot, on different blocks. *)
Definition rows_equal_slot : list Row :=
  [ row "2024-01-01" (Some 2) (Some 1) 100 2000 10 20;
    row "2024-01-01" (Some 1) (Some 1) 300 4000 30 40 ].

Definition rows_slot_only : list Row :=
  [ row "2024-01-01" None (Some 2) 100 2000 10 20;
    row "2024-01-01" None (Some 1) 100 3000 10 20 ].

Definition row_without_slot : Row := row "2024-01-01" None None 120 2500 200 180.

Definition rows_hourly : list Row :=
  [ row "2024-01-02" (Some 1) None 80 3100 60 50;
    row "2024-01-01" None None 120 2500 200 180;
    row "2024-01-01" None None 120 2500 200 180 ].

Definition current_sample : gmap string Summary :=
  {[ "DAM" := {| total_volume_gwh := Some (float_of_Z 10); twap := Some (float_of_Z 5) |};
     "RTM" := {| total_volume_gwh := Some (float_of_Z 0); twap := Some (float_of_Z 5) |} ]}.

Definition previous_sample : gmap string Summary :=
  {[ "RTM" := {| total_volume_gwh := Some (float_of_Z 10); twap := Some (float_of_Z 4) |} ]}.

(** ** More of Python: float operators and [str] *)

Module PyFloat.

Definition fsub : float -> float -> float := SFsub prec emax.
Definition feq : float -> float -> bool := SFeqb.
Definition fabs : float -> float := SFabs.

(** The literals [100] and [1], as floats. *)
Definition f_100 : float := S754_finite false 7036874417766400 (-46).
Definition f_1 : float := S754_finite false M52 (-52).

(** [x / y] where the divisor may be zero: [None] stands for the
    [ZeroDivisionError] that Python raises then. *)
Definition truediv (x y : float) : option float :=
  if feq y f_0 then None else Some (fdiv x y).

End PyFloat.

Import PyFloat.

(** A [str] is the list of its code points. *)
Module PyStr.

(** [str.isspace] of one code point: the characters [str.strip] strips
    and [\s] matches. *)
Definition isspace (c : N) : bool :=
  ((9 <=? c) && (c <=? 13) || (28 <=? c) && (c <=? 32) ||
   (c =? 133) || (c =? 160) || (c =? 5760) ||
   (8192 <=? c) && (c <=? 8202) || (c =? 8232) || (c =? 8233) ||
   (c =? 8239) || (c =? 8287) || (c =? 12288))%N.

(** The code points of [>] and [<]. *)
Definition chr_gt : N := 62%N.
Definition chr_lt : N := 60%N.

Fixpoint lstrip (s : list N) : list N :=
  match s with
  | [] => []
  | c :: s' => if isspace c then lstrip s' else s
  end.

Definition rstrip (s : list N) : list N := reverse (lstrip (reverse s)).

(** [s.strip()] *)
Definition strip (s : list N) : list N := rstrip (lstrip s).

(** The length of a match of [\s*<] at the head of [s]. *)
Fixpoint match_spaces_lt (s : list N) : option nat :=
  match s with
  | [] => None
  | c :: s' =>
      if isspace c then S <$> match_spaces_lt s'
      else if (c =? chr_lt)%N then Some 1%nat else None
  end.

(** The length of a match of [\s+<] at the head of [s]. *)
Definition match_gap (s : list N) : option nat :=
  match s with
  | [] => None
  | c :: s' => if isspace c then S <$> match_spaces_lt s' else None
  end.

(** [re.sub(r'>\s+<', '><', s)], scanning from the left: [skip] is the
    number of characters of the last match still to pass over. *)
Fixpoint sub_gaps_from (skip : nat) (s : list N) : list N :=
  match s with
  | [] => []
  | c :: s' =>
      match skip with
      | S k => sub_gaps_from k s'
      | O =>
          match (if (c =? chr_gt)%N then match_gap s' else None) with
          | Some n => chr_gt :: chr_lt :: sub_gaps_from n s'
          | None => c :: sub_gaps_from O s'
          end
      end
  end.

Definition re_sub_gaps (s : list N) : list N := sub_gaps_from O s.

End PyStr.

Import PyStr.

(** ** [presenters/enhanced_response_builder.py]

    The methods of [EnhancedResponseBuilder] that compute: [_minify],
    [_format_pct], and the figures that [_build_comparison_table] and
    [_build_stats_row] put into their markup.  The market dictionaries
    map the keys the code reads to floats; [fmt1 x] stands for the
    text [f"{x:.1f}"]; a method that divides returns [None] where
    Python raises [ZeroDivisionError]. *)

Module EnhancedResponseBuilder.

(** Lines 6-10: [re.sub(r'>\s+<', '><', html.strip())]. *)
Definition _minify (html : list N) : list N := re_sub_gaps (strip html).

(** The double-quote character. *)
Definition dq : string := String (Ascii.ascii_of_nat 34) EmptyString.

(** A [span] of the classes [badge] and [color] around [body]. *)
Definition badge_html (color body : string) : string :=
  "<span class=" +:+ dq +:+ "badge " +:+ color +:+ dq +:+ ">" +:+ body +:+ "</span>".

(** Lines 12-17. *)
Definition _format_pct (fmt1 : float -> string) (value : float) : string :=
  if feq value f_0 then badge_html "badge-blue" "-"
  else
    let symbol := if flt f_0 value then "▲" else "▼" in
    let color := if flt f_0 value then "badge-green" else "badge-red" in
    badge_html color (symbol +:+ " " +:+ fmt1 (fabs value) +:+ "%").

(** Line 144: [((p_cur - p_prev) / p_prev * 100) if p_prev > 0 else 0]. *)
Definition yoy_price (p_cur p_prev : float) : option float :=
  if flt f_0 p_prev then
    q ← truediv (fsub p_cur p_prev) p_prev;
    mret (fmul q f_100)
  else mret f_0.

(** What one [<tr>] of the comparison table shows. *)
Record ComparisonRow : Type := {
  cr_market : string;
  cr_v_cur : float;
  cr_v_prev : float;
  cr_p_cur : float;
  cr_p_prev : float;
  cr_yoy_badge : string
}.

(** Lines 136-145: one turn of the loop over the markets. *)
Definition comparison_row (fmt1 : float -> string)
    (current previous : gmap string (gmap string float)) (m : string) :
    option ComparisonRow :=
  let curr_data := get (current !! m) ∅ in
  let prev_data := get (previous !! m) ∅ in
  let p_cur := get (curr_data !! "twap") f_0 in
  let p_prev := get (prev_data !! "twap") f_0 in
  let v_cur := get (curr_data !! "total_volume_gwh") f_0 in
  let v_prev := get (prev_data !! "total_volume_gwh") f_0 in
  yoy_p ← yoy_price p_cur p_prev;
  let yoy_badge := _format_pct fmt1 yoy_p in
  mret {| cr_market := m; cr_v_cur := v_cur; cr_v_prev := v_prev;
          cr_p_cur := p_cur; cr_p_prev := p_prev; cr_yoy_badge := yoy_badge |}.

(** Lines 132-160: the rows of the table, in the order they are appended
    to [rows]. *)
Definition _build_comparison_table (fmt1 : float -> string)
    (current previous : gmap string (gmap string float)) :
    option (list ComparisonRow) :=
  mapM (comparison_row fmt1 current previous) ["DAM"; "GDAM"; "RTM"].

(** What the KPI strip shows. *)
Record StatsRow : Type := {
  sr_price : float;
  sr_total_volume : float;
  sr_market_vol : float;
  sr_buy_bids : float;
  sr_sell_bids : float;
  sr_bid_ratio : float;
  sr_ratio_color : string;
  sr_ratio_label : string
}.

(** Lines 79-91: the figures of [_build_stats_row]. *)
Definition _build_stats_row (market : string)
    (all_data : gmap string (gmap string float)) (total_volume : float) :
    option StatsRow :=
  let data := get (all_data !! market) ∅ in
  let price := get (data !! "twap") f_0 in
  let market_vol := get (data !! "total_volume_gwh") f_0 in
  let buy_bids := get (data !! "purchase_bid_total_mw") f_0 in
  let sell_bids := get (data !! "sell_bid_total_mw") f_0 in
  bid_ratio ← (if flt f_0 sell_bids then truediv buy_bids sell_bids else mret f_0);
  let ratio_color := if flt f_1 bid_ratio then "badge-green" else "badge-red" in
  let ratio_label :=
    if flt f_1 bid_ratio then "Buy-Side Dominant" else "Sell-Side Dominant" in
  mret {| sr_price := price; sr_total_volume := total_volume;
          sr_market_vol := market_vol; sr_buy_bids := buy_bids;
          sr_sell_bids := sell_bids; sr_bid_ratio := bid_ratio;
          sr_ratio_color := ratio_color; sr_ratio_label := ratio_label |}.

End EnhancedResponseBuilder.

Import EnhancedResponseBuilder.

(** ** Vocabulary of the further statements *)

(** The label of a row, from its sort key: the label the builders write
    for a row that carries only the index of its granularity. *)
Definition key_label (is_quarterly : bool) (r : Row) : string :=
  delivery_date r +:+ (if is_quarterly then " S-" else " H-") +:+ pretty (sort_key r).2.

(** The price line of a market, as the multi-market chart draws it. *)
Definition price_line (market_name : string) (s : Series) : Trace :=
  {| t_kind := Scatter; t_name := market_name; t_x := x_vals s; t_y := prices s;
     t_faded := false; t_secondary_y := false; t_col := 1 |}.

(** A whitespace run between [>] and [<]. *)
Definition tag_gap (ws : list N) : Prop :=
  ws <> [] /\ Forall (fun c => isspace c = true) ws.

(** [s] holds a [>], whitespace, and a [<] in a row. *)
Definition has_gap (s : list N) : Prop :=
  exists pre ws post, s = pre ++ chr_gt :: ws ++ chr_lt :: post /\ tag_gap ws.

(** [t] arises from [s] by taking out whitespace runs that stand between
    a [>] and a [<]: whole runs, one at a time, and nothing else. *)
Inductive closes_gaps : list N -> list N -> Prop :=
| closes_gaps_done s : closes_gaps s s
| closes_gaps_step pre ws post t :
    tag_gap ws ->
    closes_gaps (pre ++ chr_gt :: chr_lt :: post) t ->
    closes_gaps (pre ++ chr_gt :: ws ++ chr_lt :: post) t.

(** The first (the last) character of [s], if any, is no whitespace. *)
Definition starts_solid (s : list N) : Prop :=
  forall c, head s = Some c -> isspace c = false.

Definition ends_solid (s : list N) : Prop :=
  forall c, last s = Some c -> isspace c = false.

(** The code points of an ASCII text. *)
Definition text (s : string) : list N :=
  map (fun a => N.of_nat (Ascii.nat_of_ascii a)) (String.list_ascii_of_string s).

(** The sign of a float that has one: not of a zero, not of NaN. *)
Definition fsign (x : float) : option bool :=
  match x with
  | S754_finite s _ _ | S754_infinity s => Some s
  | _ => None
  end.

(** The mantissa [m] of sign [s] and exponent [e], at the exponent
    [ez]. *)
Definition scaled (s : bool) (m : positive) (e ez : Z) : Z :=
  cond_Zopp s (Zpos m * 2 ^ (e - ez)).

(** A mantissa with its rounding bits that stands for at most [2 ^ k]. *)
Definition below_pow (k : Z) (mrs : shr_record) : Prop :=
  0 <= shr_m mrs /\
  (shr_m mrs < 2 ^ k \/
   (shr_m mrs = 2 ^ k /\ shr_r mrs = false /\ shr_s mrs = false)).

(** The change of a price in percent, and the ratio of the bids, as
    they come out where no division fails. *)
Definition yoy_change (p_cur p_prev : float) : float :=
  if flt f_0 p_prev then fmul (fdiv (fsub p_cur p_prev) p_prev) f_100 else f_0.

Definition bid_ratio_of (buy_bids sell_bids : float) : float :=
  if flt f_0 sell_bids then fdiv buy_bids sell_bids else f_0.

(** [html] is a badge of the class [color]. *)
Definition is_badge (color html : string) : Prop :=
  exists body, html = badge_html color body.

(** ** Sample dictionaries *)

Definition market_dict (twap volume buy sell : Z) : gmap string float :=
  {[ "twap" := float_of_Z twap; "total_volume_gwh" := float_of_Z volume;
     "purchase_bid_total_mw" := float_of_Z buy;
     "sell_bid_total_mw" := float_of_Z sell ]}.

Definition dashboard_current : gmap string (gmap string float) :=
  {[ "DAM" := market_dict 5 10 200 100; "RTM" := market_dict 4 8 90 90 ]}.

Definition dashboard_previous : gmap string (gmap string float) :=
  {[ "DAM" := market_dict 4 9 150 150 ]}.

Definition fmt_sample (x : float) : string := "25.0".

Definition markets_sample : list (string * list Row) :=
  [ ("DAM", rows_hourly); ("GDAM", []); ("RTM", rows_slot_only) ].

(** ** Proof steps *)

(** Evaluation of [x ← m; k] and [mret] in the [result] monad. *)
Ltac result_step :=
  cbn [mbind mret result_bind result_ret subscript]; simpl.

(** ** The example of the specification *)

Example spec_example_quarterly :
  market_series [row "2024-01-01" None (Some 1) 120 2500 200 180] true =
  Ok {| x_vals := ["2024-01-01 S-1"];
        volumes := [float_of_Z 30];
        prices := [S754_finite false 5629499534213120 (-51)];
        buy_bids := [float_of_Z 200];
        sell_bids := [float_of_Z 180] |}.
Proof. vm_compute. reflexivity. Qed.

(** ** The contract of [sorted]

    For a key order that is a strict total order, [sorted] returns the
    one list that is an ascending, stable rearrangement of its input. *)

Section SortedContract.
Context {A K : Type} `{EqDecision K} (key : A -> K) (lt : K -> K -> bool).
Hypothesis lt_irrefl : forall a, lt a a = false.
Hypothesis lt_trans : forall a b c, lt a b = true -> lt b c = true -> lt a c = true.
Hypothesis lt_total : forall a b, lt a b = false -> lt b a = false -> a = b.

Lemma lt_asym a b : lt a b = true -> lt b a = false.
Proof.
  intros Hab. destruct (lt b a) eqn:Hba; [|reflexivity].
  rewrite <- (lt_irrefl a). symmetry. eapply lt_trans; eassumption.
Qed.

Lemma key_le_refl x : key_le key lt x x.
Proof. apply lt_irrefl. Qed.

Lemma key_le_trans x y z :
  key_le key lt x y -> key_le key lt y z -> key_le key lt x z.
Proof.
  unfold key_le. intros Hxy Hyz.
  destruct (lt (key z) (key x)) eqn:Hzx; [|reflexivity].
  destruct (lt (key x) (key y)) eqn:Hlt.
  - rewrite <- Hyz. symmetry. eapply lt_trans; eassumption.
  - rewrite (lt_total _ _ Hlt Hxy) in Hzx. congruence.
Qed.

Lemma key_le_antisym x y :
  key_le key lt x y -> key_le key lt y x -> key x = key y.
Proof. unfold key_le. intros Hxy Hyx. apply lt_total; assumption. Qed.

Lemma insort_perm x l : insort key lt x l ≡ₚ x :: l.
Proof.
  induction l as [|y l IH]; simpl; [reflexivity|].
  destruct (lt (key y) (key x)); [|reflexivity].
  rewrite IH. apply perm_swap.
Qed.

Lemma sorted_perm l : sorted key lt l ≡ₚ l.
Proof.
  induction l as [|x l IH]; simpl; [reflexivity|].
  rewrite insort_perm. by rewrite IH.
Qed.


Lemma insort_ascending x l :
  StronglySorted (key_le key lt) l -> StronglySorted (key_le key lt) (insort key lt x l).
Proof.
  induction l as [|y l IH]; simpl; intros Hs.
  - repeat constructor.
  - apply StronglySorted_inv in Hs as [Hl Hy].
    destruct (lt (key y) (key x)) eqn:Hyx.
    + constructor; [by apply IH|].
      rewrite insort_perm. constructor; [|assumption].
      by apply lt_asym.
    + constructor; [by constructor|].
      constructor; [assumption|].
      eapply Forall_impl; [exact Hy|].
      intros z Hz. by eapply key_le_trans.
Qed.

Lemma sorted_ascending l : StronglySorted (key_le key lt) (sorted key lt l).
Proof.
  induction l as [|x l IH]; simpl; [constructor|]. by apply insort_ascending.
Qed.

Lemma insort_with_key k x l :
  with_key key k (insort key lt x l) = with_key key k (x :: l).
Proof.
  unfold with_key. induction l as [|y l IH]; simpl; [reflexivity|].
  destruct (lt (key y) (key x)) eqn:Hyx; [|reflexivity].
  assert (Hne : key y <> key x).
  { intros Heq. rewrite Heq, lt_irrefl in Hyx. discriminate. }
  rewrite (filter_cons _ y), IH, !filter_cons.
  repeat case_decide; congruence.
Qed.

Lemma sorted_stable k l : with_key key k (sorted key lt l) = with_key key k l.
Proof.
  induction l as [|x l IH]; simpl; [reflexivity|].
  rewrite insort_with_key. unfold with_key in *.
  by rewrite !filter_cons, IH.
Qed.

Lemma sorted_fixed l : Sorted (key_le key lt) l -> sorted key lt l = l.
Proof.
  induction 1 as [|x l Hl IH Hhd]; simpl; [reflexivity|].
  rewrite IH. destruct Hhd as [|y l Hxy]; simpl; [reflexivity|].
  unfold key_le in Hxy. by rewrite Hxy.
Qed.

Lemma sorted_idempotent l : sorted key lt (sorted key lt l) = sorted key lt l.
Proof. apply sorted_fixed, StronglySorted_Sorted, sorted_ascending. Qed.

Lemma with_key_head x l : x ∈ with_key key (key x) (x :: l).
Proof. unfold with_key. rewrite filter_cons_True by reflexivity. left. Qed.

Lemma with_key_elem k x l : x ∈ with_key key k l -> x ∈ l.
Proof. unfold with_key. intros Hin. by apply list_elem_of_filter in Hin as [_ ?]. Qed.

(** The head of an ascending list stands in front of whatever shares a
    key class with it in another list. *)
Lemma ascending_head_le x l1 y l2 :
  Forall (key_le key lt y) l2 ->
  with_key key (key x) (x :: l1) = with_key key (key x) (y :: l2) ->
  key_le key lt y x.
Proof.
  intros Hy Hk.
  assert (Hin : x ∈ y :: l2).
  { apply (with_key_elem (key x)). rewrite <- Hk. apply with_key_head. }
  apply elem_of_cons in Hin as [->|Hin]; [apply key_le_refl|].
  rewrite Forall_forall in Hy. by apply Hy.
Qed.

(** Two ascending lists that agree key by key are the same list. *)
Lemma ascending_stable_unique l1 l2 :
  StronglySorted (key_le key lt) l1 -> StronglySorted (key_le key lt) l2 ->
  (forall k, with_key key k l1 = with_key key k l2) -> l1 = l2.
Proof.
  intros Hs1. revert l2.
  induction Hs1 as [|x l1 Hs1 IH Hx]; intros l2 Hs2 Hk.
  - destruct l2 as [|y l2]; [reflexivity|].
    specialize (Hk (key y)). unfold with_key in Hk.
    rewrite filter_cons_True in Hk by reflexivity. discriminate.
  - destruct Hs2 as [|y l2 Hs2 Hy].
    { specialize (Hk (key x)). unfold with_key in Hk.
      rewrite filter_cons_True in Hk by reflexivity. discriminate. }
    assert (Hxy : key x = key y).
    { apply key_le_antisym.
      - apply (ascending_head_le y l2 x l1 Hx). symmetry. apply Hk.
      - apply (ascending_head_le x l1 y l2 Hy). apply Hk. }
    assert (Heq : x = y).
    { specialize (Hk (key x)). unfold with_key in Hk.
      rewrite !filter_cons_True in Hk by congruence. congruence. }
    subst y. f_equal. apply IH; [assumption|].
    intros k. specialize (Hk k). unfold with_key in *.
    rewrite !filter_cons in Hk. case_decide; congruence.
Qed.

(** Whatever stable sort the interpreter runs, it returns [sorted]. *)
Lemma sorted_unique l l' :
  StronglySorted (key_le key lt) l' ->
  (forall k, with_key key k l' = with_key key k l) ->
  l' = sorted key lt l.
Proof.
  intros Hs Hk. apply ascending_stable_unique; [assumption|apply sorted_ascending|].
  intros k. by rewrite Hk, sorted_stable.
Qed.

End SortedContract.

(** ** The order of the sort keys *)

Section KeyOrder.

Lemma str_ltb_lt a b : String.ltb a b = true <-> String_as_OT.lt a b.
Proof.
  rewrite <- String_as_OT.cmp_lt. unfold String.ltb, String_as_OT.cmp.
  destruct (String.compare a b); split; congruence.
Qed.

Lemma str_ltb_irrefl a : String.ltb a a = false.
Proof.
  unfold String.ltb.
  pose proof (proj2 (String_as_OT.cmp_eq a a) eq_refl) as H.
  unfold String_as_OT.cmp in H. by rewrite H.
Qed.

Lemma str_ltb_trans a b c :
  String.ltb a b = true -> String.ltb b c = true -> String.ltb a c = true.
Proof. rewrite !str_ltb_lt. apply String_as_OT.lt_trans. Qed.

Lemma str_ltb_total a b :
  String.ltb a b = false -> String.ltb b a = false -> a = b.
Proof.
  unfold String.ltb. rewrite (String.compare_antisym b a).
  destruct (String.compare a b) eqn:Hc; simpl; try discriminate.
  intros _ _. by apply String.compare_eq_iff.
Qed.

Lemma tuple_lt_irrefl a : tuple_lt a a = false.
Proof. unfold tuple_lt. by rewrite String.eqb_refl, Z.eqb_refl. Qed.

Lemma tuple_lt_trans a b c :
  tuple_lt a b = true -> tuple_lt b c = true -> tuple_lt a c = true.
Proof.
  destruct a as [a1 a2], b as [b1 b2], c as [c1 c2]. unfold tuple_lt. simpl.
  destruct (String.eqb_spec a1 b1) as [->|Hab];
    destruct (String.eqb_spec b1 c1) as [->|Hbc].
  - destruct (Z.eqb_spec a2 b2), (Z.eqb_spec b2 c2), (Z.eqb_spec a2 c2);
      try discriminate; lia.
  - intros _ H. exact H.
  - intros H _. destruct (String.eqb_spec a1 c1); [congruence|exact H].
  - intros H1 H2. pose proof (str_ltb_trans _ _ _ H1 H2) as H3.
    destruct (String.eqb_spec a1 c1) as [->|Hac]; [|assumption].
    by rewrite str_ltb_irrefl in H3.
Qed.

Lemma tuple_lt_total a b :
  tuple_lt a b = false -> tuple_lt b a = false -> a = b.
Proof.
  destruct a as [a1 a2], b as [b1 b2]. unfold tuple_lt. simpl.
  rewrite (String.eqb_sym b1 a1), (Z.eqb_sym b2 a2).
  destruct (String.eqb_spec a1 b1) as [->|Hab].
  - destruct (Z.eqb_spec a2 b2) as [->|Hne]; [reflexivity|]. lia.
  - intros H1 H2. destruct Hab. by apply str_ltb_total.
Qed.

Lemma tuple_lt_false a b : tuple_lt b a = false <-> lex_le a b.
Proof.
  destruct a as [a1 a2], b as [b1 b2]. unfold tuple_lt, lex_le. simpl.
  destruct (String.eqb_spec b1 a1) as [->|Hne].
  - rewrite str_ltb_irrefl. destruct (Z.eqb_spec b2 a2) as [->|Hne].
    + split; [intros _; right; split; [reflexivity|lia]|reflexivity].
    + rewrite Z.ltb_ge. split; [intros H; right; split; [reflexivity|lia]|].
      intros [H|[_ H]]; [discriminate|lia].
  - split.
    + intros Hlt. left.
      destruct (String.ltb a1 b1) eqn:Hab; [reflexivity|].
      destruct Hne. by apply str_ltb_total.
    + intros [Hlt|[-> _]]; [|done].
      destruct (String.ltb b1 a1) eqn:Hba; [|reflexivity].
      pose proof (str_ltb_trans _ _ _ Hlt Hba) as H.
      by rewrite str_ltb_irrefl in H.
Qed.

End KeyOrder.

(** ** Facts about the sorted rows *)

Section SortRows.

Lemma sort_rows_perm rows : sort_rows rows ≡ₚ rows.
Proof. apply sorted_perm. Qed.


Lemma row_le_key_le x y : key_le sort_key tuple_lt x y <-> row_le x y.
Proof. apply tuple_lt_false. Qed.

Lemma ascending_key_le rows :
  StronglySorted row_le rows <-> StronglySorted (key_le sort_key tuple_lt) rows.
Proof.
  split; induction 1 as [|x l Hl IH Hx]; constructor; try assumption;
    (eapply Forall_impl; [exact Hx|]); intros y Hy; by apply row_le_key_le.
Qed.

Lemma sort_rows_ascending rows : StronglySorted row_le (sort_rows rows).
Proof.
  apply ascending_key_le, sorted_ascending;
    [apply tuple_lt_irrefl|apply tuple_lt_trans|apply tuple_lt_total].
Qed.

Lemma sort_rows_stable k rows :
  rows_with_key k (sort_rows rows) = rows_with_key k rows.
Proof. apply (sorted_stable sort_key tuple_lt tuple_lt_irrefl). Qed.

Lemma sort_rows_fixed rows : StronglySorted row_le rows -> sort_rows rows = rows.
Proof.
  intros Hs. apply sorted_fixed, StronglySorted_Sorted. by apply ascending_key_le.
Qed.

Lemma sort_rows_nil rows : sort_rows rows = [] <-> rows = [].
Proof.
  split; [|by intros ->].
  intros H. apply Permutation_nil. rewrite <- H. apply sort_rows_perm.
Qed.

End SortRows.

(** ** Labels of the sorted rows *)

Section Labels.

Lemma slot_label_Some r i :
  slot_index r = Some i ->
  slot_label r = Ok (delivery_date r +:+ " S-" +:+ pretty i).
Proof. unfold slot_label. by intros ->. Qed.

Lemma slot_label_None r :
  slot_index r = None -> slot_label r = Raise (KeyError "slot_index").
Proof. unfold slot_label. by intros ->. Qed.

Lemma mapM_cons_result {A B} (f : A -> result B) x l :
  mapM f (x :: l) = y ← f x; k ← mapM f l; mret (y :: k).
Proof. reflexivity. Qed.

Lemma mapM_slot_label_Ok rows xs :
  mapM slot_label rows = Ok xs <-> Forall2 labelled_slot rows xs.
Proof.
  revert xs. induction rows as [|r rows IH]; intros xs.
  - split; [intros [= <-]; constructor|by inversion 1].
  - rewrite mapM_cons_result. unfold labelled_slot at 1.
    destruct (slot_index r) as [i|] eqn:Hi.
    + rewrite (slot_label_Some r i Hi).
      destruct (mapM slot_label rows) as [ys|e] eqn:Hm; result_step.
      * split.
        -- intros [= <-]. constructor; [by exists i|by apply IH].
        -- inversion 1 as [|? x ? ys' (j & Hj & ->) Hys]; subst.
           rewrite Hi in Hj. injection Hj as <-.
           apply (proj2 (IH _)) in Hys. by injection Hys as ->.
      * split; [discriminate|].
        inversion 1 as [|? x ? ys' _ Hys]; subst.
        by apply (proj2 (IH _)) in Hys.
    + rewrite (slot_label_None r Hi). split; [discriminate|].
      inversion 1 as [|? x ? ys' (j & Hj & _) _]. congruence.
Qed.

Lemma mapM_slot_label_total rows :
  Forall has_slot rows -> exists xs, mapM slot_label rows = Ok xs.
Proof.
  induction 1 as [|r rows [i Hi] _ [xs IH]]; [by exists []|].
  rewrite mapM_cons_result, (slot_label_Some r i Hi), IH. by eexists.
Qed.

Lemma mapM_slot_label_Raise rows :
  Exists (fun r => slot_index r = None) rows ->
  mapM slot_label rows = Raise (KeyError "slot_index").
Proof.
  induction rows as [|r rows IH]; intros Hex; [by inversion Hex|].
  rewrite mapM_cons_result.
  destruct (slot_index r) as [i|] eqn:Hi.
  - rewrite (slot_label_Some r i Hi).
    inversion Hex as [? ? Hr|? ? Hrows]; subst; [congruence|].
    by rewrite IH.
  - by rewrite (slot_label_None r Hi).
Qed.

End Labels.

(** ** The single-market builder *)

Section MarketSeries.

Lemma market_series_hourly rows :
  market_series rows false =
  Ok {| x_vals := map block_label (sort_rows rows);
        volumes := map (volume_mwh false) (sort_rows rows);
        prices := map price_per_kwh (sort_rows rows);
        buy_bids := map purchase_bid_mw (sort_rows rows);
        sell_bids := map sell_bid_mw (sort_rows rows) |}.
Proof. reflexivity. Qed.

Lemma market_series_quarterly rows xs :
  mapM slot_label (sort_rows rows) = Ok xs ->
  market_series rows true =
  Ok {| x_vals := xs;
        volumes := map (volume_mwh true) (sort_rows rows);
        prices := map price_per_kwh (sort_rows rows);
        buy_bids := map purchase_bid_mw (sort_rows rows);
        sell_bids := map sell_bid_mw (sort_rows rows) |}.
Proof. unfold market_series. by intros ->. Qed.

Lemma market_series_quarterly_Raise rows e :
  mapM slot_label (sort_rows rows) = Raise e -> market_series rows true = Raise e.
Proof. unfold market_series. by intros ->. Qed.

Lemma Forall2_map_eq {A B} (f : A -> B) l :
  Forall2 (fun a b => b = f a) l (map f l).
Proof. induction l; constructor; auto. Qed.

(** Whatever series comes out lists the sorted rows. *)
Lemma market_series_Ok rows is_quarterly s :
  market_series rows is_quarterly = Ok s ->
  series_of is_quarterly (sort_rows rows) s.
Proof.
  destruct is_quarterly.
  - destruct (mapM slot_label (sort_rows rows)) as [xs|e] eqn:Hm.
    + rewrite (market_series_quarterly rows xs Hm). intros [= <-].
      repeat split. by apply mapM_slot_label_Ok.
    + by rewrite (market_series_quarterly_Raise rows e Hm).
  - rewrite market_series_hourly. intros [= <-].
    repeat split. apply Forall2_map_eq.
Qed.

(** A series comes out unless a quarterly row lacks its slot. *)
Lemma market_series_total rows is_quarterly :
  (is_quarterly = true -> Forall has_slot rows) ->
  exists s, market_series rows is_quarterly = Ok s.
Proof.
  destruct is_quarterly; intros Hslot; [|by eexists].
  destruct (mapM_slot_label_total (sort_rows rows)) as [xs Hxs].
  { rewrite sort_rows_perm. by apply Hslot. }
  eexists. by apply market_series_quarterly.
Qed.

Lemma market_series_Raise rows :
  Exists (fun r => slot_index r = None) rows ->
  market_series rows true = Raise (KeyError "slot_index").
Proof.
  intros Hex. apply market_series_quarterly_Raise, mapM_slot_label_Raise.
  by rewrite sort_rows_perm.
Qed.

Lemma generate_market_chart_cons market_name time_label rows is_quarterly :
  rows <> [] ->
  generate_market_chart market_name time_label rows is_quarterly =
  s ← market_series rows is_quarterly;
  mret (Some (market_figure market_name time_label s)).
Proof. by destruct rows. Qed.

Lemma generate_market_chart_Ok market_name time_label rows is_quarterly fig :
  generate_market_chart market_name time_label rows is_quarterly = Ok (Some fig) <->
  rows <> [] /\
  exists s, market_series rows is_quarterly = Ok s /\
            fig = market_figure market_name time_label s.
Proof.
  destruct rows as [|r rows].
  { split; [discriminate|]. by intros [? _]. }
  rewrite generate_market_chart_cons by discriminate.
  destruct (market_series (r :: rows) is_quarterly) as [s|e]; result_step.
  - split.
    + intros [= <-]. split; [discriminate|]. by exists s.
    + by intros (_ & s' & [= <-] & ->).
  - split; [discriminate|]. by intros (_ & s' & [=] & _).
Qed.

Lemma generate_market_chart_sorted market_name time_label rows is_quarterly :
  generate_market_chart market_name time_label (sort_rows rows) is_quarterly =
  generate_market_chart market_name time_label rows is_quarterly.
Proof.
  assert (Hidem : sort_rows (sort_rows rows) = sort_rows rows)
    by apply sort_rows_fixed, sort_rows_ascending.
  destruct rows as [|r rows]; [reflexivity|].
  rewrite !generate_market_chart_cons; [|discriminate|by rewrite sort_rows_nil].
  unfold market_series. by rewrite Hidem.
Qed.


(** The builder labels every sorted row, one label per row and in the
    order of the sorted rows, with ["{delivery_date} S-{slot_index}"]
    when quarterly and ["{delivery_date} H-{block_index}"] otherwise, a
    missing [block_index] reading as 0; a quarterly row without
    [slot_index] makes it raise. *)
Lemma market_chart_labels market_name time_label rows is_quarterly :
  rows <> [] ->
  ((is_quarterly = true -> Forall has_slot rows) ->
     exists s,
       generate_market_chart market_name time_label rows is_quarterly =
       Ok (Some (market_figure market_name time_label s)) /\
       Forall2 (labelled is_quarterly) (sort_rows rows) (x_vals s)) /\
  (is_quarterly = true -> Exists (fun r => slot_index r = None) rows ->
     generate_market_chart market_name time_label rows is_quarterly =
     Raise (KeyError "slot_index")).
Proof.
  intros Hne. rewrite generate_market_chart_cons by assumption. split.
  - intros Hslot.
    destruct (market_series_total rows is_quarterly Hslot) as [s Hs].
    exists s. rewrite Hs. split; [reflexivity|].
    by apply market_series_Ok in Hs as [? _].
  - intros -> Hex. by rewrite market_series_Raise.
Qed.

End MarketSeries.

(** ** The multi-market builder *)

Section MultiMarket.

Lemma market_trace_nil name is_quarterly :
  market_trace name [] is_quarterly = Ok None.
Proof. reflexivity. Qed.

Lemma market_trace_cons name rows is_quarterly t :
  rows <> [] ->
  market_trace name rows is_quarterly = Ok t ->
  exists tr, t = Some tr /\ trace_of is_quarterly name rows tr.
Proof.
  intros Hne. destruct rows as [|r rows]; [done|].
  unfold market_trace. set (srt := sort_rows (r :: rows)).
  destruct is_quarterly.
  - destruct (mapM slot_label srt) as [xs|e] eqn:Hm; result_step; [|done].
    intros [= <-]. eexists. split; [reflexivity|].
    repeat split. by apply mapM_slot_label_Ok.
  - result_step. intros [= <-]. eexists. split; [reflexivity|].
    repeat split. apply Forall2_map_eq.
Qed.

Lemma market_trace_total name rows is_quarterly :
  (is_quarterly = true -> Forall has_slot rows) ->
  exists t, market_trace name rows is_quarterly = Ok t.
Proof.
  intros Hslot. destruct rows as [|r rows]; [by eexists|].
  unfold market_trace. set (srt := sort_rows (r :: rows)).
  destruct is_quarterly; [|by eexists].
  destruct (mapM_slot_label_total srt) as [xs ->]; [|by eexists].
  unfold srt. rewrite sort_rows_perm. by apply Hslot.
Qed.

Lemma multi_market_loop_Ok items is_quarterly data out :
  multi_market_loop items is_quarterly data = Ok out <->
  exists ts, traces_of is_quarterly items ts /\ out = data ++ omap id ts.
Proof.
  revert data. induction items as [|[name rows] items IH]; intros data; simpl.
  - split.
    + intros [= <-]. exists []. split; [constructor|by rewrite app_nil_r].
    + intros (ts & Hts & ->). inversion Hts. by rewrite app_nil_r.
  - destruct (market_trace name rows is_quarterly) as [t|e] eqn:Ht; result_step.
    + rewrite IH. split.
      * intros (ts & Hts & ->). exists (t :: ts). split; [by constructor|].
        destruct t; simpl; [by rewrite <- app_assoc|done].
      * intros (ts & Hts & ->).
        inversion Hts as [|? t' ? ts' Ht' Hts']; subst. simpl in Ht'.
        rewrite Ht in Ht'. injection Ht' as <-.
        exists ts'. split; [done|].
        destruct t; simpl; [by rewrite <- app_assoc|done].
    + split; [done|]. intros (ts & Hts & _).
      inversion Hts as [|? t' ? ts' Ht' Hts']; subst. simpl in Ht'. congruence.
Qed.

Lemma traces_of_names is_quarterly items ts :
  traces_of is_quarterly items ts ->
  map t_name (omap id ts) = map fst (filter (fun item => has_rows item) items).
Proof.
  induction 1 as [|[name rows] t items ts Ht _ IH]; [reflexivity|].
  simpl in Ht. destruct rows as [|r rows].
  - rewrite market_trace_nil in Ht. injection Ht as <-.
    rewrite filter_cons_False by (simpl; tauto). exact IH.
  - apply market_trace_cons in Ht as (tr & -> & _ & Hname & _); [|done].
    rewrite filter_cons_True by (simpl; tauto).
    change (omap id (Some tr :: ts)) with (tr :: omap id ts).
    rewrite !map_cons, Hname. f_equal. exact IH.
Qed.

Lemma traces_of_functional is_quarterly items ts ts' :
  traces_of is_quarterly items ts -> traces_of is_quarterly items ts' -> ts = ts'.
Proof.
  intros Hts. revert ts'.
  induction Hts as [|item t items ts Ht _ IH]; intros ts' Hts'.
  - by inversion Hts'.
  - inversion Hts' as [|? t' ? ts'' Ht' Hts'']; subst.
    f_equal; [congruence|by apply IH].
Qed.


Lemma traces_of_source is_quarterly items ts tr :
  traces_of is_quarterly items ts -> tr ∈ omap id ts ->
  exists name rows, (name, rows) ∈ items /\ rows <> [] /\
                    trace_of is_quarterly name rows tr.
Proof.
  induction 1 as [|[name rows] t items ts Ht _ IH]; intros Hin.
  - by apply elem_of_nil in Hin.
  - simpl in Ht. destruct rows as [|r rows].
    + rewrite market_trace_nil in Ht. injection Ht as <-.
      destruct (IH Hin) as (n & rs & ? & ? & ?). exists n, rs.
      split; [by right|done].
    + apply market_trace_cons in Ht as (tr' & -> & Htr); [|done].
      change (omap id (Some tr' :: ts)) with (tr' :: omap id ts) in Hin.
      apply elem_of_cons in Hin as [->|Hin].
      * exists name, (r :: rows). split; [left|done].
      * destruct (IH Hin) as (n & rs & ? & ? & ?). exists n, rs.
        split; [by right|done].
Qed.

Lemma traces_of_total is_quarterly items :
  (is_quarterly = true -> Forall (fun item => Forall has_slot item.2) items) ->
  exists ts, traces_of is_quarterly items ts.
Proof.
  intros Hslot. induction items as [|[name rows] items IH]; [exists []; constructor|].
  destruct IH as [ts Hts].
  { intros Hq. specialize (Hslot Hq). by inversion Hslot. }
  destruct (market_trace_total name rows is_quarterly) as [t Ht].
  { intros Hq. specialize (Hslot Hq). by inversion Hslot. }
  exists (t :: ts). by constructor.
Qed.

Lemma generate_multi_market_chart_Ok market_data time_label is_quarterly fig :
  generate_multi_market_chart market_data time_label is_quarterly = Ok (Some fig) <->
  market_data <> [] /\
  exists ts, traces_of is_quarterly market_data ts /\
    fig = {| fig_title := "Market Comparison"; fig_subtitle := Some time_label;
             fig_data := omap id ts |}.
Proof.
  destruct market_data as [|item items]; simpl.
  { split; [done|]. by intros [? _]. }
  change (match item with (n, r) => _ end)
    with (multi_market_loop (item :: items) is_quarterly []).
  destruct (multi_market_loop (item :: items) is_quarterly []) as [out|e] eqn:Hl;
    result_step.
  - apply multi_market_loop_Ok in Hl as (ts & Hts & ->). simpl. split.
    + intros [= <-]. split; [done|]. by exists ts.
    + intros (_ & ts' & Hts' & ->).
      by rewrite (traces_of_functional _ _ _ _ Hts Hts').
  - split; [done|]. intros (_ & ts & Hts & _).
    assert (multi_market_loop (item :: items) is_quarterly [] = Ok ([] ++ omap id ts))
      as Hl' by (apply multi_market_loop_Ok; by exists ts).
    congruence.
Qed.

End MultiMarket.

(** ** The year-over-year builder *)

Section Comparison.
Context (current_data previous_data : gmap string Summary) (year : Z).

(** The fields of the two templates that go through [str.format]. *)
Lemma hover_template_fields :
  format_fields "%{x} {year_minus}: %{y:.2f} GWh<extra></extra>" =
    ["x"; "year_minus"; "y"] /\
  format_fields "%{x} {year_minus}: ₹%{y:.2f}/kWh<extra></extra>" =
    ["x"; "year_minus"; "y"].
Proof. split; vm_compute; reflexivity. Qed.

(** With [year_minus] as its only keyword, the call fails at the field
    [x]. *)
Lemma hover_template_raises :
  str_format "%{x} {year_minus}: %{y:.2f} GWh<extra></extra>" ["year_minus"] =
  Raise (KeyError "x").
Proof. vm_compute. reflexivity. Qed.

Lemma comparison_bars_raises market curr prev :
  comparison_bars market curr prev year = Raise (KeyError "x").
Proof. unfold comparison_bars. by rewrite hover_template_raises. Qed.

Lemma comparison_step_included st market :
  included current_data market = true ->
  comparison_step current_data previous_data year st market = Raise (KeyError "x").
Proof.
  unfold included, current_volume, comparison_step. intros ->.
  by rewrite comparison_bars_raises.
Qed.

Lemma comparison_step_skipped st market :
  included current_data market = false ->
  comparison_step current_data previous_data year st market = Ok st.
Proof. unfold included, current_volume, comparison_step. by intros ->. Qed.

Lemma comparison_loop_eq l st :
  comparison_loop current_data previous_data year l st =
  if existsb (included current_data) l then Raise (KeyError "x") else Ok st.
Proof.
  induction l as [|m l IH]; [reflexivity|]. cbn [comparison_loop existsb].
  destruct (included current_data m) eqn:Hm.
  - by rewrite comparison_step_included.
  - rewrite comparison_step_skipped by done. result_step. exact IH.
Qed.

Lemma generate_comparison_chart_eq :
  generate_comparison_chart current_data previous_data year =
  if existsb (included current_data) markets then Raise (KeyError "x") else Ok None.
Proof.
  unfold generate_comparison_chart. rewrite comparison_loop_eq.
  by destruct (existsb (included current_data) markets).
Qed.

End Comparison.

(** ** Binary64 arithmetic: a quarter, either way

    [x * 0.25] rounds the product of the mantissa of [x] with [2 ^ 52];
    [x / 4.0] rounds the quotient of the shifted mantissa by [2 ^ 52].
    Both hand the same mantissa, the same exponent and the same rounding
    bits to the rounding step. *)

Section Quarter.

Lemma binary_round_aux_congr s m1 e1 l1 m2 e2 l2 :
  shr_fexp prec emax m1 e1 l1 = shr_fexp prec emax m2 e2 l2 ->
  binary_round_aux prec emax s m1 e1 l1 = binary_round_aux prec emax s m2 e2 l2.
Proof. unfold binary_round_aux. by intros ->. Qed.

Lemma div_eucl_unique a b q r :
  0 <= r < b -> a = b * q + r -> Z.div_eucl a b = (q, r).
Proof.
  intros Hr Ha.
  assert (Hb : b > 0) by lia.
  pose proof (Z_div_mod a b Hb) as H.
  destruct (Z.div_eucl a b) as [q' r']. destruct H as [H1 H2].
  assert (q' = q) by nia. subst q'. f_equal. lia.
Qed.

Lemma div_mod_M52 a q r :
  0 <= r < Zpos M52 -> a = Zpos M52 * q + r ->
  a / Zpos M52 = q /\ a mod Zpos M52 = r.
Proof.
  intros Hr Ha. unfold Z.div, Z.modulo.
  by rewrite (div_eucl_unique a (Zpos M52) q r Hr Ha).
Qed.

Lemma shiftl_pos m k : 0 <= k -> Z.shiftl (Zpos m) k = Zpos m * 2 ^ k.
Proof. intros Hk. by apply Z.shiftl_mul_pow2. Qed.

(** A binary64 mantissa has 53 digits, or fewer at the least exponent. *)
Lemma is_float_finite s m e :
  is_float (S754_finite s m e) ->
  (Zpos (digits2_pos m) = 53 /\ -1074 <= e <= 971) \/
  (e = -1074 /\ Zpos (digits2_pos m) <= 53).
Proof.
  unfold is_float, valid_binary, bounded, canonical_mantissa, fexp, emin, prec, emax.
  intros H. apply andb_prop in H as [H1 H2].
  apply Z.eqb_eq in H1. apply Z.leb_le in H2.
  lia.
Qed.

Lemma digits_mul_M52 m :
  Zdigits2 (Zpos (m * M52)) = Zpos (digits2_pos m) + 52.
Proof.
  rewrite Pos.mul_comm. unfold M52. cbv [Pos.mul]. cbn [Zdigits2 digits2_pos]. lia.
Qed.

Lemma shr_fexp_mul_quarter m e n :
  fexp prec emax (Zpos (digits2_pos m) + 52 + (e + -54)) - (e + -54) = Zpos n ->
  shr_fexp prec emax (Zpos (m * M52)) (e + -54) loc_Exact =
  (SpecFloat.iter_pos shr_1 n (Build_shr_record (Zpos (M52 * m)) false false),
   e + -54 + Zpos n).
Proof.
  intros Hn. unfold shr_fexp. rewrite digits_mul_M52, Hn.
  by rewrite (Pos.mul_comm m).
Qed.

Lemma div_core_four m e :
  SFdiv_core_binary prec emax (Zpos m) e (Zpos M52) (-50) =
  let e' := Z.min (fexp prec emax (Zpos (digits2_pos m) + e - 3)) (e + 50) in
  let s := e + 50 - e' in
  let m' := match s with
            | Zpos _ => Z.shiftl (Zpos m) s
            | Z0 => Zpos m
            | Zneg _ => 0
            end in
  (m' / Zpos M52, e', new_location (Zpos M52) (m' mod Zpos M52)).
Proof.
  unfold SFdiv_core_binary, Z.div, Z.modulo.
  change (Zdigits2 (Zpos m)) with (Zpos (digits2_pos m)).
  change (Zdigits2 (Zpos M52) + -50) with 3.
  change (e - -50) with (e + 50).
  cbv zeta. by destruct (Z.div_eucl _ _).
Qed.

Lemma shr_fexp_zero_shift m e l :
  fexp prec emax (Zdigits2 m + e) - e = 0 ->
  shr_fexp prec emax m e l = (shr_record_of_loc m l, e).
Proof. unfold shr_fexp. by intros ->. Qed.

End Quarter.

(** Linear arithmetic on exponents, [fexp] unfolded. *)
Ltac fexp_lia := unfold fexp, emin, prec, emax in *; cbn [Zdigits2] in *; lia.

(** The shifted mantissa [m * 2 ^ k] has quotient [q] and remainder [r]
    by [2 ^ 52]; nothing is left to shift before rounding. *)
Ltac quarter_case m k q r :=
  destruct (div_mod_M52 (Z.shiftl (Zpos m) k) q r) as [-> ->];
  [ unfold M52; lia
  | rewrite shiftl_pos by lia; unfold M52; lia
  | rewrite shr_fexp_zero_shift by (cbn [digits2_pos] in *; fexp_lia);
    cbn; f_equal; lia ].

(** The cases are those of the exponent [e] of [x]. From [-1072] on,
    both results are [x] with its exponent lowered by two. At [-1073]
    one bit of the mantissa, at [-1074] two bits are rounded away: the
    same bits, with the same rounding position, on either side. *)
Lemma quarter_mul_div x :
  is_float x -> fmul x f_0_25 = fdiv x f_4_0.
Proof.
  destruct x as [s|s| |s m e]; try reflexivity.
  intros Hv. apply is_float_finite in Hv.
  unfold fmul, fdiv, SFmul, SFdiv, f_0_25, f_4_0.
  rewrite div_core_four. cbv zeta.
  apply binary_round_aux_congr.
  assert (Hc : (Zpos (digits2_pos m) = 53 /\ -1071 <= e) \/
               (Zpos (digits2_pos m) = 53 /\ e = -1072) \/
               (Zpos (digits2_pos m) = 53 /\ e = -1073) \/
               (e = -1074 /\ Zpos (digits2_pos m) <= 53)) by lia.
  clear Hv. destruct Hc as [[Hd He]|[[Hd He]|[[Hd He]|[He Hd]]]].
  - rewrite (shr_fexp_mul_quarter m e 52) by fexp_lia.
    replace (Z.min _ _) with (e - 3) by fexp_lia.
    replace (e + 50 - (e - 3)) with 53 by lia.
    destruct (div_mod_M52 (Z.shiftl (Zpos m) 53) (Zpos m~0) 0) as [-> ->].
    { unfold M52; lia. }
    { rewrite shiftl_pos by lia. unfold M52. lia. }
    unfold shr_fexp.
    replace (fexp prec emax (Zdigits2 (Zpos m~0) + (e - 3)) - (e - 3)) with 1
      by (cbn [Zdigits2 digits2_pos]; fexp_lia).
    cbn. f_equal. lia.
  - rewrite (shr_fexp_mul_quarter m e 52) by fexp_lia.
    replace (Z.min _ _) with (e - 2) by fexp_lia.
    replace (e + 50 - (e - 2)) with 52 by lia.
    quarter_case m 52 (Zpos m) 0.
  - rewrite (shr_fexp_mul_quarter m e 53) by fexp_lia.
    replace (Z.min _ _) with (e - 1) by fexp_lia.
    replace (e + 50 - (e - 1)) with 51 by lia.
    destruct m as [p|p|]; [| |discriminate Hd].
    + quarter_case (p~1)%positive 51 (Zpos p) (2 ^ 51).
    + quarter_case (p~0)%positive 51 (Zpos p) 0.
  - rewrite (shr_fexp_mul_quarter m e 54) by fexp_lia.
    replace (Z.min _ _) with e by fexp_lia.
    replace (e + 50 - e) with 50 by lia.
    destruct m as [[p|p|]|[p|p|]|].
    + quarter_case (p~1~1)%positive 50 (Zpos p) (3 * 2 ^ 50).
    + quarter_case (p~0~1)%positive 50 (Zpos p) (2 ^ 50).
    + quarter_case 3%positive 50 0 (3 * 2 ^ 50).
    + quarter_case (p~1~0)%positive 50 (Zpos p) (2 * 2 ^ 50).
    + quarter_case (p~0~0)%positive 50 (Zpos p) 0.
    + quarter_case 2%positive 50 0 (2 * 2 ^ 50).
    + quarter_case 1%positive 50 0 (2 ^ 50).
Qed.

(** ** The sort key, as the specification words it

    The specification reads the index of a row as [slot_index] for
    quarterly data and as [block_index] otherwise. The code's key does
    not look at the granularity flag. *)

Section SpecSortKey.

Lemma sort_key_single_index is_quarterly r :
  single_index is_quarterly r -> sort_key r = spec_sort_key is_quarterly r.
Proof.
  unfold single_index, sort_key, spec_sort_key, get.
  destruct is_quarterly.
  - by intros ->.
  - intros [->|[b ->]]; [by destruct (block_index r)|done].
Qed.

Lemma insort_key_ext {A K} (key1 key2 : A -> K) lt x l :
  key1 x = key2 x -> Forall (fun y => key1 y = key2 y) l ->
  insort key1 lt x l = insort key2 lt x l.
Proof.
  intros Hx. induction 1 as [|y l Hy _ IH]; simpl; [reflexivity|].
  by rewrite Hx, Hy, IH.
Qed.

Lemma sorted_key_ext {A K} (key1 key2 : A -> K) lt l :
  Forall (fun y => key1 y = key2 y) l -> sorted key1 lt l = sorted key2 lt l.
Proof.
  induction 1 as [|x l Hx Hl IH]; simpl; [reflexivity|].
  rewrite <- IH. apply insort_key_ext; [assumption|].
  by rewrite sorted_perm.
Qed.

(** On rows with a single index, the rows of one key are the same rows
    whichever of the two keys is meant. *)
Lemma rows_with_spec_key is_quarterly k rows :
  Forall (single_index is_quarterly) rows ->
  with_key (spec_sort_key is_quarterly) k rows = rows_with_key k rows.
Proof.
  unfold with_key, rows_with_key.
  induction 1 as [|r rows Hr _ IH]; [reflexivity|].
  rewrite !filter_cons, IH, (sort_key_single_index _ _ Hr). reflexivity.
Qed.

End SpecSortKey.

(** ** Claims about the sort *)

(** C1, as stated, fails: with [is_quarterly] set, two rows of one date
    whose block and slot indices disagree come out in block order, so the
    labels read S-2 before S-1; with [is_quarterly] unset, rows without a
    block index are ordered by their slot index instead of staying put. *)
Lemma C1_counterexample :
  sort_rows rows_both_indices <> spec_sort_rows true rows_both_indices /\
  (exists s,
     generate_market_chart "RTM" "today" rows_both_indices true =
       Ok (Some (market_figure "RTM" "today" s)) /\
     x_vals s = ["2024-01-01 S-2"; "2024-01-01 S-1"]) /\
  sort_rows rows_slot_only <> spec_sort_rows false rows_slot_only.
Proof.
  split; [|split].
  - vm_compute. discriminate.
  - exists {| x_vals := ["2024-01-01 S-2"; "2024-01-01 S-1"];
              volumes := map (volume_mwh true) (sort_rows rows_both_indices);
              prices := map price_per_kwh (sort_rows rows_both_indices);
              buy_bids := map purchase_bid_mw (sort_rows rows_both_indices);
              sell_bids := map sell_bid_mw (sort_rows rows_both_indices) |}.
    split; [vm_compute|]; reflexivity.
  - vm_compute. discriminate.
Qed.

(** C1, amended: for every row collection and both values of
    [is_quarterly], the sorted rows are a stable, ascending rearrangement
    by [(delivery_date, k)], where [k] is the row's [block_index] when
    present, else its [slot_index] when present, else 0, whatever
    [is_quarterly] is; the series of the single-market builder and every
    trace of the multi-market builder list their market's rows in that
    order. On rows that carry only the index of their granularity this
    is the order by [slot_index] (quarterly) or [block_index]
    (otherwise), defaulting to 0. *)
Theorem C1_sort_key rows is_quarterly :
  (sort_rows rows ≡ₚ rows /\
   StronglySorted row_le (sort_rows rows) /\
   forall k, rows_with_key k (sort_rows rows) = rows_with_key k rows) /\
  (forall market_name time_label fig,
     generate_market_chart market_name time_label rows is_quarterly = Ok (Some fig) ->
     exists s, fig = market_figure market_name time_label s /\
               series_of is_quarterly (sort_rows rows) s) /\
  (forall market_data time_label fig tr,
     generate_multi_market_chart market_data time_label is_quarterly = Ok (Some fig) ->
     tr ∈ fig_data fig ->
     exists name rows', (name, rows') ∈ market_data /\ rows' <> [] /\
                        trace_of is_quarterly name rows' tr) /\
  (Forall (single_index is_quarterly) rows ->
     sort_rows rows = spec_sort_rows is_quarterly rows).
Proof.
  split; [|split; [|split]].
  - split; [apply sort_rows_perm|]. split; [apply sort_rows_ascending|].
    intros k. apply sort_rows_stable.
  - intros market_name time_label fig Hfig.
    apply generate_market_chart_Ok in Hfig as (_ & s & Hs & ->).
    exists s. split; [reflexivity|]. by apply market_series_Ok.
  - intros market_data time_label fig tr Hfig Htr.
    apply generate_multi_market_chart_Ok in Hfig as (_ & ts & Hts & ->).
    by eapply traces_of_source.
  - intros Hrows. apply sorted_key_ext.
    eapply Forall_impl; [exact Hrows|]. apply sort_key_single_index.
Qed.

(** C8, as stated, fails: two quarterly rows of one date and one
    [slot_index], hence of one [(delivery_date, interval_index)], are
    swapped when the first carries the larger [block_index]; both are
    labelled S-1, and the prices show the swap. *)
Lemma C8_counterexample :
  spec_sort_key true <$> rows_equal_slot = [("2024-01-01", 1); ("2024-01-01", 1)] /\
  sort_rows rows_equal_slot = reverse rows_equal_slot /\
  sort_rows rows_equal_slot <> rows_equal_slot /\
  exists s,
    generate_market_chart "RTM" "today" rows_equal_slot true =
      Ok (Some (market_figure "RTM" "today" s)) /\
    x_vals s = ["2024-01-01 S-1"; "2024-01-01 S-1"] /\
    prices s = map price_per_kwh (reverse rows_equal_slot).
Proof.
  split; [reflexivity|]. split; [vm_compute; reflexivity|].
  split; [vm_compute; discriminate|].
  exists {| x_vals := ["2024-01-01 S-1"; "2024-01-01 S-1"];
            volumes := map (volume_mwh true) (sort_rows rows_equal_slot);
            prices := map price_per_kwh (sort_rows rows_equal_slot);
            buy_bids := map purchase_bid_mw (sort_rows rows_equal_slot);
            sell_bids := map sell_bid_mw (sort_rows rows_equal_slot) |}.
  split; [vm_compute; reflexivity|]. split; [reflexivity|].
  vm_compute. reflexivity.
Qed.

(** C8, amended: the sort of the single-market builder is stable for
    the key it computes (the rows of one sort key keep their order of
    insertion; on rows with a single index these are the rows of one
    [(delivery_date, interval_index)]) and idempotent (sorting the
    sorted rows, or any ascending collection, changes nothing, and so
    neither does it change the series built from them). *)
Theorem C8_sort_stable_idempotent rows :
  (forall k, rows_with_key k (sort_rows rows) = rows_with_key k rows) /\
  (forall is_quarterly k, Forall (single_index is_quarterly) rows ->
     with_key (spec_sort_key is_quarterly) k (sort_rows rows) =
     with_key (spec_sort_key is_quarterly) k rows) /\
  (forall r1 r2, sort_key r1 = sort_key r2 -> sort_rows [r1; r2] = [r1; r2]) /\
  sort_rows (sort_rows rows) = sort_rows rows /\
  (StronglySorted row_le rows -> sort_rows rows = rows) /\
  (forall market_name time_label is_quarterly,
     generate_market_chart market_name time_label (sort_rows rows) is_quarterly =
     generate_market_chart market_name time_label rows is_quarterly).
Proof.
  assert (Hidem : sort_rows (sort_rows rows) = sort_rows rows)
    by apply sort_rows_fixed, sort_rows_ascending.
  split; [|split; [|split; [|split; [|split]]]].
  - intros k. apply sort_rows_stable.
  - intros is_quarterly k Hrows.
    rewrite !rows_with_spec_key by (by rewrite ?sort_rows_perm).
    apply sort_rows_stable.
  - intros r1 r2 Hk. unfold sort_rows. simpl.
    by rewrite Hk, tuple_lt_irrefl.
  - exact Hidem.
  - apply sort_rows_fixed.
  - intros market_name time_label is_quarterly.
    apply generate_market_chart_sorted.
Qed.

(** The example of the specification: equal date and slot, supplied in
    either order, come out in the order supplied. *)
Example stable_in_either_order :
  let a := row "2024-01-01" None (Some 7) 100 2000 10 20 in
  let b := row "2024-01-01" None (Some 7) 300 4000 30 40 in
  sort_rows [a; b] = [a; b] /\ sort_rows [b; a] = [b; a].
Proof. split; vm_compute; reflexivity. Qed.

(** ** Claims about the single-market series *)

(** C2: the labels are as claimed for rows that carry their index, and a
    missing [block_index] reads as 0; but a quarterly row without
    [slot_index] is not labelled [S-0]: the builder raises [KeyError],
    although the sort key of the same row defaults the index to 0 and
    the hourly label of the same row is [H-0]. *)
Theorem C2_missing_slot_raises :
  generate_market_chart "DAM" "today" [row_without_slot] true =
    Raise (KeyError "slot_index") /\
  sort_key row_without_slot = ("2024-01-01", 0) /\
  exists s,
    generate_market_chart "DAM" "today" [row_without_slot] false =
      Ok (Some (market_figure "DAM" "today" s)) /\
    x_vals s = ["2024-01-01 H-0"].
Proof.
  split; [vm_compute; reflexivity|]. split; [reflexivity|].
  rewrite generate_market_chart_cons, market_series_hourly by discriminate.
  eexists. split; [reflexivity|]. vm_compute. reflexivity.
Qed.

(** Equal rows keep equal labels, one per row. *)
Example hourly_labels :
  exists s, market_series rows_hourly false = Ok s /\
    x_vals s = ["2024-01-01 H-0"; "2024-01-01 H-0"; "2024-01-02 H-1"].
Proof. eexists. split; vm_compute; reflexivity. Qed.



(** C9: an empty row collection, and an empty mapping, give the absent
    value [None]; nothing is raised. *)
Theorem C9_empty_input market_name time_label is_quarterly :
  generate_market_chart market_name time_label [] is_quarterly = Ok None /\
  generate_multi_market_chart [] time_label is_quarterly = Ok None.
Proof. split; reflexivity. Qed.

(** ** Claims about the conversions *)

Section Conversions.




Lemma SFeqb_refl x : x <> S754_nan -> SFeqb x x = true.
Proof.
  unfold SFeqb. destruct x as [s|s| |s m e]; [done|by destruct s|done|].
  intros _. simpl. rewrite Z.compare_refl, Pos.compare_cont_refl.
  by destruct s.
Qed.

End Conversions.


(** 2500 gives 2.5, -2500 gives -2.5 and 0 gives 0. *)
Example price_examples :
  fdiv (float_of_Z 2500) f_1000_0 = S754_finite false 5629499534213120 (-51) /\
  fdiv (float_of_Z (-2500)) f_1000_0 = S754_finite true 5629499534213120 (-51) /\
  fdiv (float_of_Z 0) f_1000_0 = S754_zero false.
Proof. repeat split; vm_compute; reflexivity. Qed.

(** C7: for every binary64 value [mcv_mw], the product with [0.25] and
    the quotient by [4.0] are the same float (and compare equal with [==]
    unless they are NaN), so the volumes of the series do not depend on
    [is_quarterly]. *)
Theorem C7_volume_factor rows :
  Forall (fun r => is_float (mcv_mw r)) rows ->
  (forall r, r ∈ rows ->
     fmul (mcv_mw r) f_0_25 = fdiv (mcv_mw r) f_4_0 /\
     (fdiv (mcv_mw r) f_4_0 <> S754_nan ->
      SFeqb (fmul (mcv_mw r) f_0_25) (fdiv (mcv_mw r) f_4_0) = true)) /\
  (forall market_name time_label fig1 fig2,
     generate_market_chart market_name time_label rows true = Ok (Some fig1) ->
     generate_market_chart market_name time_label rows false = Ok (Some fig2) ->
     exists s1 s2, fig1 = market_figure market_name time_label s1 /\
                   fig2 = market_figure market_name time_label s2 /\
                   volumes s1 = volumes s2).
Proof.
  intros Hrows. split.
  - intros r Hr. rewrite Forall_forall in Hrows.
    rewrite (quarter_mul_div _ (Hrows r Hr)). split; [reflexivity|].
    apply SFeqb_refl.
  - intros market_name time_label fig1 fig2 H1 H2.
    apply generate_market_chart_Ok in H1 as (_ & s1 & H1 & ->).
    apply generate_market_chart_Ok in H2 as (_ & s2 & H2 & ->).
    exists s1, s2. split; [reflexivity|]. split; [reflexivity|].
    apply market_series_Ok in H1 as (_ & -> & _), H2 as (_ & -> & _).
    apply map_ext_Forall. rewrite sort_rows_perm.
    eapply Forall_impl; [exact Hrows|]. intros r Hr. by apply quarter_mul_div.
Qed.

Lemma C7_volume_factor_witness :
  Forall (fun r => is_float (mcv_mw r)) rows_slot_only /\
  forall r, r ∈ rows_slot_only -> fmul (mcv_mw r) f_0_25 = fdiv (mcv_mw r) f_4_0.
Proof.
  assert (Hf : Forall (fun r => is_float (mcv_mw r)) rows_slot_only)
    by (repeat constructor).
  split; [exact Hf|].
  intros r Hr. exact (proj1 (proj1 (C7_volume_factor rows_slot_only Hf) r Hr)).
Defined.

(** ** Claims about the multi-market chart *)

Lemma multi_market_loop_no_rows items is_quarterly data :
  Forall (fun item => has_rows item = false) items ->
  multi_market_loop items is_quarterly data = Ok data.
Proof.
  intros Hall. revert data.
  induction Hall as [|[name rows] items Hrows _ IH]; intros data; [reflexivity|].
  destruct rows as [|r rows]; [|done]. simpl. apply IH.
Qed.

(** The mapping whose only market has no rows: a figure without traces
    comes back, where the single-market builder returns the absent
    value for the same rows. *)
Example markets_without_rows :
  generate_multi_market_chart [("DAM", [])] "today" false =
    Ok (Some {| fig_title := "Market Comparison"; fig_subtitle := Some "today";
                fig_data := [] |}) /\
  generate_market_chart "DAM" "today" [] false = Ok None.
Proof. split; reflexivity. Qed.

(** C3: a market without rows has no series (its key names no trace),
    and the figure holds one series per market with rows, in the order
    of the mapping. But the result is the absent value only for the
    empty mapping: a mapping none of whose markets has rows passes the
    guard of line 155 and comes back as a figure without traces, where
    the single-market builder (line 77) and the comparison builder
    ([has_data]) return [None]. *)
Theorem C3_multi_market market_data time_label is_quarterly :
  (generate_multi_market_chart market_data time_label is_quarterly = Ok None <->
   market_data = []) /\
  (market_data <> [] ->
   Forall (fun item => has_rows item = false) market_data ->
   generate_multi_market_chart market_data time_label is_quarterly =
   Ok (Some {| fig_title := "Market Comparison"; fig_subtitle := Some time_label;
               fig_data := [] |})) /\
  (forall fig,
     generate_multi_market_chart market_data time_label is_quarterly = Ok (Some fig) ->
     map t_name (fig_data fig) = map fst (filter (fun item => has_rows item) market_data) /\
     (forall name, NoDup (map fst market_data) -> (name, []) ∈ market_data ->
        name ∉ map t_name (fig_data fig)) /\
     (fig_data fig = [] <-> Forall (fun item => has_rows item = false) market_data)).
Proof.
  split; [|split].
  - split; [|by intros ->].
    destruct market_data as [|item items]; [done|]. simpl.
    change (match item with (n, r) => _ end)
      with (multi_market_loop (item :: items) is_quarterly []).
    by destruct (multi_market_loop _ _ _).
  - intros Hne Hall. destruct market_data as [|item items]; [done|].
    unfold generate_multi_market_chart.
    by rewrite (multi_market_loop_no_rows _ _ _ Hall).
  - intros fig Hfig.
    apply generate_multi_market_chart_Ok in Hfig as (_ & ts & Hts & ->). simpl.
    pose proof (traces_of_names _ _ _ Hts) as Hnames.
    split; [exact Hnames|]. split.
    + intros name Hnd Hin. rewrite Hnames. clear Hnames Hts ts.
      induction market_data as [|[n rs] items IH]; [by apply elem_of_nil in Hin|].
      simpl in Hnd. apply NoDup_cons in Hnd as [Hn Hnd].
      apply elem_of_cons in Hin as [[= <- <-]|Hin].
      * rewrite filter_cons_False by (simpl; tauto).
        intros Hin. apply Hn. apply list_elem_of_fmap in Hin as ([n' rs'] & -> & Hin).
        apply list_elem_of_filter in Hin as [_ Hin].
        apply list_elem_of_fmap. by exists (n', rs').
      * specialize (IH Hnd Hin). rewrite filter_cons.
        case_decide; [|exact IH]. simpl. apply not_elem_of_cons. split; [|exact IH].
        intros ->. apply Hn. apply list_elem_of_fmap. by exists (n, []).
    + assert (Hnil : omap id ts = [] <-> map t_name (omap id ts) = [])
        by (by destruct (omap id ts)).
      rewrite Hnil, Hnames. clear.
      induction market_data as [|[n rs] items IH]; [by split; constructor|].
      rewrite filter_cons, Forall_cons. unfold has_rows at 1 3. simpl.
      destruct rs; simpl.
      * rewrite IH. tauto.
      * split; [done|]. by intros [? _].
Qed.

(** ** Claims about the year-over-year chart *)

Section ComparisonFacts.
Context (current_data previous_data : gmap string Summary) (year : Z).

Lemma included_absent market :
  current_data !! market = None -> included current_data market = false.
Proof. unfold included, current_volume. by intros ->. Qed.

Lemma included_zero market curr sgn :
  current_data !! market = Some curr ->
  total_volume_gwh curr = Some (S754_zero sgn) ->
  included current_data market = false.
Proof. unfold included, current_volume. intros -> Hv. simpl. by rewrite Hv. Qed.

Lemma included_no_volume market curr :
  current_data !! market = Some curr -> total_volume_gwh curr = None ->
  included current_data market = false.
Proof. unfold included, current_volume. intros -> Hv. simpl. by rewrite Hv. Qed.

Lemma existsb_included_false l :
  existsb (included current_data) l = false <->
  forall m, m ∈ l -> included current_data m = false.
Proof.
  induction l as [|m l IH]; simpl.
  - split; [|done]. intros _ m Hm. by apply elem_of_nil in Hm.
  - rewrite orb_false_iff, IH. split.
    + intros [Hm Hl] m' [->|Hm']%elem_of_cons; auto.
    + intros H. split; [apply H; left|]. intros m' Hm'. apply H. by right.
Qed.

Lemma existsb_included_true l :
  existsb (included current_data) l = true <->
  exists m, m ∈ l /\ included current_data m = true.
Proof.
  induction l as [|m l IH]; simpl.
  - split; [done|]. intros (m & Hm & _). by apply elem_of_nil in Hm.
  - rewrite orb_true_iff, IH. split.
    + intros [Hm|(m' & Hm' & Hinc)]; [exists m; split; [left|done]|].
      exists m'. split; [by right|done].
    + intros (m' & [->|Hm']%elem_of_cons & Hinc); [by left|].
      right. by exists m'.
Qed.

End ComparisonFacts.

(** The example of the specification: DAM has no current volume and a
    previous volume of 10; it is left out, and with it the whole chart. *)
Example zero_current_volume_skipped :
  generate_comparison_chart
    {[ "DAM" := {| total_volume_gwh := Some (float_of_Z 0); twap := Some (float_of_Z 5) |} ]}
    {[ "DAM" := {| total_volume_gwh := Some (float_of_Z 10); twap := Some (float_of_Z 4) |} ]}
    2024 = Ok None.
Proof. vm_compute. reflexivity. Qed.

(** C4: the guard is as claimed: a market that is absent from the
    current summaries, or whose current volume is zero, is skipped
    whatever the previous summaries hold, and the result is the absent
    value exactly when every market is skipped. The bars of an included
    market, however, are never returned: before the previous-year volume
    bar is built, line 218 calls [str.format] on a hover template that
    holds the plotly placeholder [%{x}], which raises [KeyError('x')];
    the templates of the current-year bars (lines 205 and 231) are
    f-strings that escape these braces. The sample summaries, where DAM
    has a current volume of 10, are such an input. *)
Theorem C4_comparison current_data previous_data year :
  (forall market,
     current_data !! market = None \/
     (exists curr sgn, current_data !! market = Some curr /\
                       total_volume_gwh curr = Some (S754_zero sgn)) ->
     included current_data market = false) /\
  (generate_comparison_chart current_data previous_data year = Ok None <->
   forall market, market ∈ markets -> included current_data market = false) /\
  (generate_comparison_chart current_data previous_data year = Raise (KeyError "x") <->
   exists market, market ∈ markets /\ included current_data market = true) /\
  (forall fig,
     generate_comparison_chart current_data previous_data year <> Ok (Some fig)) /\
  generate_comparison_chart current_sample previous_sample 2024 = Raise (KeyError "x").
Proof.
  rewrite generate_comparison_chart_eq. split; [|split; [|split; [|split]]].
  - intros market [Habs|(curr & sgn & Hc & Hv)].
    + by apply included_absent.
    + by eapply included_zero.
  - rewrite <- existsb_included_false.
    by destruct (existsb (included current_data) markets).
  - destruct (existsb (included current_data) markets) eqn:Hex.
    + split; [intros _|done]. by apply existsb_included_true.
    + split; [done|]. intros (m & Hm & Hinc).
      rewrite existsb_included_false in Hex. by rewrite (Hex m Hm) in Hinc.
  - intros fig. by destruct (existsb (included current_data) markets).
  - vm_compute. reflexivity.
Qed.

(** C10: for an included market the previous-year values are read with
    the default 0, as claimed, when the previous summaries lack the
    market or a field of it. But no previous-year bar is emitted and the
    call does raise: the four bars of the market are never built past
    the first, since the hover template of the previous-year volume bar
    goes through [str.format] (line 218) and raises [KeyError('x')],
    whatever the previous summaries hold. *)
Theorem C10_missing_previous current_data previous_data year market :
  market ∈ markets ->
  included current_data market = true ->
  let curr := default empty_summary (current_data !! market) in
  let prev := default empty_summary (previous_data !! market) in
  (previous_data !! market = None ->
     get (total_volume_gwh prev) f_0 = f_0 /\ get (twap prev) f_0 = f_0) /\
  (total_volume_gwh prev = None -> get (total_volume_gwh prev) f_0 = f_0) /\
  (twap prev = None -> get (twap prev) f_0 = f_0) /\
  comparison_bars market curr prev year = Raise (KeyError "x") /\
  generate_comparison_chart current_data previous_data year = Raise (KeyError "x").
Proof.
  intros Hin Hinc curr prev. split; [|split; [|split; [|split]]].
  - subst prev. by intros ->.
  - by intros ->.
  - by intros ->.
  - apply comparison_bars_raises.
  - rewrite generate_comparison_chart_eq.
    destruct (existsb (included current_data) markets) eqn:Hex; [done|].
    rewrite existsb_included_false in Hex. by rewrite (Hex _ Hin) in Hinc.
Qed.

Lemma C10_missing_previous_witness :
  "DAM" ∈ markets /\
  included current_sample "DAM" = true /\
  previous_sample !! "DAM" = None /\
  generate_comparison_chart current_sample previous_sample 2024 = Raise (KeyError "x").
Proof.
  assert (Hin : "DAM" ∈ markets) by left.
  assert (Hinc : included current_sample "DAM" = true) by (vm_compute; reflexivity).
  split; [exact Hin|]. split; [exact Hinc|]. split; [vm_compute; reflexivity|].
  exact (proj2 (proj2 (proj2 (proj2
    (C10_missing_previous current_sample previous_sample 2024 "DAM" Hin Hinc))))).
Defined.

(** * Further properties of the chart builders *)

(** ** The two builders, side by side *)

Section PriceLines.

Lemma market_trace_series market_name rows is_quarterly :
  rows <> [] ->
  market_trace market_name rows is_quarterly =
  s ← market_series rows is_quarterly; mret (Some (price_line market_name s)).
Proof.
  intros Hne. destruct rows as [|r rows]; [done|].
  unfold market_trace, market_series. set (srt := sort_rows (r :: rows)).
  destruct is_quarterly; [|reflexivity].
  by destruct (mapM slot_label srt).
Qed.

End PriceLines.

(** X3: the two builders agree: the multi-market chart holds, for each
    market with rows and in the order of the mapping, the labels and
    prices that the single-market chart of that market shows as its
    price line, under the market's name. *)
Theorem X3_multi_market_chart_price_lines market_data time_label is_quarterly fig :
  generate_multi_market_chart market_data time_label is_quarterly = Ok (Some fig) ->
  Forall2
    (fun item tr =>
       exists s,
         generate_market_chart item.1 time_label item.2 is_quarterly =
           Ok (Some (market_figure item.1 time_label s)) /\
         tr = price_line item.1 s)
    (filter (fun item => has_rows item) market_data) (fig_data fig).
Proof.
  intros Hfig. apply generate_multi_market_chart_Ok in Hfig as (_ & ts & Hts & ->).
  simpl. induction Hts as [|[name rows] t items ts Ht _ IH]; [constructor|].
  simpl in Ht. destruct rows as [|r rows].
  - rewrite market_trace_nil in Ht. injection Ht as <-.
    rewrite filter_cons_False by (simpl; tauto). exact IH.
  - rewrite filter_cons_True by (simpl; tauto).
    rewrite market_trace_series in Ht by discriminate.
    destruct (market_series (r :: rows) is_quarterly) as [s|e] eqn:Hs; [|discriminate].
    injection Ht as <-.
    change (omap id (Some (price_line name s) :: ts))
      with (price_line name s :: omap id ts).
    constructor; [|exact IH].
    exists s. split; [|reflexivity]. cbn [fst snd].
    rewrite generate_market_chart_cons by discriminate. by rewrite Hs.
Qed.

Lemma X3_multi_market_chart_price_lines_witness :
  exists fig,
    generate_multi_market_chart markets_sample "today" false = Ok (Some fig) /\
    Forall2
      (fun item tr =>
         exists s,
           generate_market_chart item.1 "today" item.2 false =
             Ok (Some (market_figure item.1 "today" s)) /\
           tr = price_line item.1 s)
      (filter (fun item => has_rows item) markets_sample) (fig_data fig).
Proof.
  assert (H : exists fig,
            generate_multi_market_chart markets_sample "today" false = Ok (Some fig))
    by (vm_compute; eauto).
  destruct H as [fig Hfig]. exists fig. split; [exact Hfig|].
  exact (X3_multi_market_chart_price_lines markets_sample "today" false fig Hfig).
Defined.

(** ** Labels that tell the rows apart *)

Section DistinctLabels.

Lemma string_app_inj_length (a b x y : string) :
  String.length a = String.length b -> a +:+ x = b +:+ y -> a = b /\ x = y.
Proof.
  revert b. induction a as [|c a IH]; intros [|d b] Hlen Heq; simpl in *;
    try discriminate; [done|].
  injection Hlen as Hlen. injection Heq as -> Heq.
  destruct (IH b Hlen Heq) as [-> ->]. done.
Qed.

Lemma key_label_inj is_quarterly r1 r2 :
  String.length (delivery_date r1) = String.length (delivery_date r2) ->
  key_label is_quarterly r1 = key_label is_quarterly r2 ->
  sort_key r1 = sort_key r2.
Proof.
  unfold key_label. intros Hlen Heq.
  apply string_app_inj_length in Heq as [Hd Heq]; [|exact Hlen].
  apply string_app_inj_length in Heq as [_ Heq]; [|reflexivity].
  apply (inj pretty) in Heq. unfold sort_key in *. simpl in *. congruence.
Qed.

Lemma labelled_key_label is_quarterly r x :
  single_index is_quarterly r -> labelled is_quarterly r x ->
  x = key_label is_quarterly r.
Proof.
  unfold single_index, labelled, labelled_slot, block_label, key_label, sort_key, get.
  destruct is_quarterly; simpl.
  - intros -> (i & -> & ->). reflexivity.
  - intros [->|[b ->]] ->; [by destruct (block_index r)|reflexivity].
Qed.

Lemma key_labels_NoDup is_quarterly rows :
  (forall r1 r2, r1 ∈ rows -> r2 ∈ rows ->
     String.length (delivery_date r1) = String.length (delivery_date r2)) ->
  NoDup (map sort_key rows) -> NoDup (map (key_label is_quarterly) rows).
Proof.
  induction rows as [|r rows IH]; intros Hlen Hnd; [constructor|].
  simpl in *. apply NoDup_cons in Hnd as [Hr Hnd]. constructor.
  - intros Hin. apply list_elem_of_fmap in Hin as (r' & Heq & Hr').
    apply Hr. apply list_elem_of_fmap. exists r'. split; [|done].
    apply (key_label_inj is_quarterly); [|done].
    apply Hlen; [left|by right].
  - apply IH; [|done]. intros r1 r2 H1 H2. apply Hlen; by right.
Qed.

Lemma labelled_key_labels is_quarterly rows xs :
  Forall (single_index is_quarterly) rows ->
  Forall2 (labelled is_quarterly) rows xs ->
  xs = map (key_label is_quarterly) rows.
Proof.
  intros Hrows Hxs. induction Hxs as [|r x rows xs Hx _ IH]; [reflexivity|].
  apply Forall_cons in Hrows as [Hr Hrows]. simpl.
  by rewrite (labelled_key_label _ _ _ Hr Hx), IH.
Qed.

End DistinctLabels.

(** X4: rows with distinct sort keys get distinct labels on the x axis:
    for rows that carry only the index of their granularity and dates
    of one length (ISO dates), no two points of the chart share a
    label. *)
Theorem X4_market_chart_labels_distinct market_name time_label rows is_quarterly n fig :
  Forall (single_index is_quarterly) rows ->
  Forall (fun r => String.length (delivery_date r) = n) rows ->
  NoDup (map sort_key rows) ->
  generate_market_chart market_name time_label rows is_quarterly = Ok (Some fig) ->
  exists s, fig = market_figure market_name time_label s /\ NoDup (x_vals s).
Proof.
  intros Hsingle Hlen Hnd Hfig.
  apply generate_market_chart_Ok in Hfig as (_ & s & Hs & ->).
  exists s. split; [reflexivity|].
  apply market_series_Ok in Hs as (Hx & _).
  rewrite (labelled_key_labels is_quarterly (sort_rows rows) (x_vals s));
    [|by rewrite sort_rows_perm|done].
  apply key_labels_NoDup.
  - rewrite <- (sort_rows_perm rows) in Hlen. rewrite Forall_forall in Hlen.
    intros r1 r2 H1 H2. by rewrite (Hlen r1 H1), (Hlen r2 H2).
  - by rewrite sort_rows_perm.
Qed.

Lemma X4_market_chart_labels_distinct_witness :
  Forall (single_index true) rows_slot_only /\
  NoDup (map sort_key rows_slot_only) /\
  exists s,
    generate_market_chart "RTM" "today" rows_slot_only true =
      Ok (Some (market_figure "RTM" "today" s)) /\
    NoDup (x_vals s).
Proof.
  assert (Hsingle : Forall (single_index true) rows_slot_only)
    by (repeat constructor).
  assert (Hlen : Forall (fun r => String.length (delivery_date r) = 10%nat)
                   rows_slot_only) by (repeat constructor).
  assert (Hnd : NoDup (map sort_key rows_slot_only)).
  { vm_compute. repeat constructor; rewrite ?elem_of_cons, ?elem_of_nil;
      intros H; repeat destruct H as [H|H]; try discriminate H; done. }
  split; [exact Hsingle|]. split; [exact Hnd|].
  destruct (market_chart_labels "RTM" "today" rows_slot_only true) as [Hl _];
    [discriminate|].
  destruct Hl as (s & Hs & _); [intros _; repeat constructor; by eexists|].
  destruct (X4_market_chart_labels_distinct "RTM" "today" rows_slot_only true _ _
              Hsingle Hlen Hnd Hs) as (s' & Heq & Hnodup).
  exists s'. split; [by rewrite Hs, Heq|exact Hnodup].
Defined.

(** ** Rows in any order *)

Section OrderIndependence.

Lemma with_key_distinct {A K : Type} `{EqDecision K} (key : A -> K) k l :
  NoDup (map key l) -> (length (with_key key k l) <= 1)%nat.
Proof.
  unfold with_key. induction l as [|x l IH]; intros Hnd; [simpl; lia|].
  apply NoDup_cons in Hnd as [Hx Hnd]. rewrite filter_cons.
  case_decide as Hk; [|auto]. simpl.
  assert (Hnil : filter (fun y => key y = k) l = []).
  { clear IH Hnd. induction l as [|y l IH]; [done|].
    simpl in Hx. apply not_elem_of_cons in Hx as [Hxy Hx].
    rewrite filter_cons_False by congruence. by apply IH. }
  rewrite Hnil. simpl. lia.
Qed.

Lemma short_perm_eq {A} (l1 l2 : list A) :
  (length l1 <= 1)%nat -> l1 ≡ₚ l2 -> l1 = l2.
Proof.
  intros Hlen Hp. destruct l1 as [|x [|y l1]]; [| |simpl in Hlen; lia].
  - symmetry. by apply Permutation_nil.
  - by apply Permutation_singleton_l.
Qed.

Lemma sort_rows_order_independent rows rows' :
  rows ≡ₚ rows' -> NoDup (map sort_key rows) -> sort_rows rows = sort_rows rows'.
Proof.
  intros Hp Hnd.
  apply (ascending_stable_unique sort_key tuple_lt tuple_lt_irrefl tuple_lt_total).
  - apply ascending_key_le, sort_rows_ascending.
  - apply ascending_key_le, sort_rows_ascending.
  - intros k. fold (rows_with_key k (sort_rows rows)).
    fold (rows_with_key k (sort_rows rows')). rewrite !sort_rows_stable.
    apply short_perm_eq; [by apply with_key_distinct|].
    unfold rows_with_key, with_key. by rewrite Hp.
Qed.

End OrderIndependence.

(** X5: the chart does not depend on the order in which the rows arrive,
    as long as no two rows share a sort key [(delivery_date, index)]. *)
Theorem X5_market_chart_order_independent market_name time_label rows rows' is_quarterly :
  rows ≡ₚ rows' -> NoDup (map sort_key rows) ->
  generate_market_chart market_name time_label rows is_quarterly =
  generate_market_chart market_name time_label rows' is_quarterly.
Proof.
  intros Hp Hnd.
  rewrite <- (generate_market_chart_sorted _ _ rows),
    <- (generate_market_chart_sorted _ _ rows').
  by rewrite (sort_rows_order_independent rows rows').
Qed.

Lemma X5_market_chart_order_independent_witness :
  rows_slot_only ≡ₚ reverse rows_slot_only /\
  NoDup (map sort_key rows_slot_only) /\
  generate_market_chart "RTM" "today" rows_slot_only true =
  generate_market_chart "RTM" "today" (reverse rows_slot_only) true.
Proof.
  assert (Hp : rows_slot_only ≡ₚ reverse rows_slot_only)
    by (symmetry; apply reverse_Permutation).
  assert (Hnd : NoDup (map sort_key rows_slot_only)).
  { vm_compute. repeat constructor; rewrite ?elem_of_cons, ?elem_of_nil;
      intros H; repeat destruct H as [H|H]; try discriminate H; done. }
  split; [exact Hp|]. split; [exact Hnd|].
  exact (X5_market_chart_order_independent "RTM" "today" _ _ true Hp Hnd).
Defined.

(** * [EnhancedResponseBuilder._minify] *)

(** ** The scan of [re.sub] *)

Section Regex.
Open Scope nat_scope.

Lemma isspace_gt : isspace chr_gt = false.
Proof. reflexivity. Qed.

Lemma isspace_lt : isspace chr_lt = false.
Proof. reflexivity. Qed.

Lemma sub_gaps_from_skip n s : sub_gaps_from n s = re_sub_gaps (drop n s).
Proof.
  revert n. induction s as [|c s IH]; intros [|n]; try reflexivity.
  simpl. apply IH.
Qed.

Lemma re_sub_gaps_nil : re_sub_gaps [] = [].
Proof. reflexivity. Qed.

(** At a match the replacement is written and the scan goes on behind it. *)
Lemma re_sub_gaps_match s n :
  match_gap s = Some n ->
  re_sub_gaps (chr_gt :: s) = chr_gt :: chr_lt :: re_sub_gaps (drop n s).
Proof.
  intros Hm. unfold re_sub_gaps. simpl. rewrite Hm.
  by rewrite sub_gaps_from_skip.
Qed.

(** Elsewhere one character is copied. *)
Lemma re_sub_gaps_copy c s :
  c <> chr_gt \/ match_gap s = None ->
  re_sub_gaps (c :: s) = c :: re_sub_gaps s.
Proof.
  intros Hc. unfold re_sub_gaps. simpl.
  destruct (N.eqb_spec c chr_gt) as [->|Hne]; [|reflexivity].
  destruct Hc as [Hc| ->]; [done|reflexivity].
Qed.

Lemma match_spaces_lt_Some s n :
  match_spaces_lt s = Some n <->
  exists ws rest, s = ws ++ chr_lt :: rest /\
    Forall (fun c => isspace c = true) ws /\ n = S (length ws).
Proof.
  revert n. induction s as [|c s IH]; intros n; simpl.
  - split; [discriminate|]. intros (ws & rest & Heq & _). by destruct ws.
  - destruct (isspace c) eqn:Hc.
    + destruct (match_spaces_lt s) as [m|] eqn:Hm; simpl.
      * split.
        -- intros [= <-]. destruct (proj1 (IH m) eq_refl) as (ws & rest & -> & Hws & ->).
           exists (c :: ws), rest. repeat split. by constructor.
        -- intros (ws & rest & Heq & Hws & ->). destruct ws as [|w ws].
           { injection Heq as -> _. by rewrite isspace_lt in Hc. }
           injection Heq as -> ->. apply Forall_cons in Hws as [_ Hws].
           f_equal. symmetry. apply (f_equal S).
           assert (Some m = Some (S (length ws))) as [= ->]; [|done].
           apply IH. by exists ws, rest.
      * split; [discriminate|].
        intros (ws & rest & Heq & Hws & ->). destruct ws as [|w ws].
        { injection Heq as -> _. by rewrite isspace_lt in Hc. }
        injection Heq as -> ->. apply Forall_cons in Hws as [_ Hws].
        assert (None = Some (S (length ws))); [|done].
        apply IH. by exists ws, rest.
    + destruct (N.eqb_spec c chr_lt) as [->|Hne].
      * split.
        -- intros [= <-]. by exists [], s.
        -- intros (ws & rest & Heq & Hws & ->). destruct ws as [|w ws]; [done|].
           injection Heq as <- _. apply Forall_cons in Hws as [Hw _].
           by rewrite isspace_lt in Hw.
      * split; [discriminate|].
        intros (ws & rest & Heq & Hws & ->). destruct ws as [|w ws].
        -- by injection Heq as ->.
        -- injection Heq as -> _. apply Forall_cons in Hws as [Hw _]. congruence.
Qed.

Lemma match_gap_Some s n :
  match_gap s = Some n <->
  exists ws rest, s = ws ++ chr_lt :: rest /\ tag_gap ws /\ n = S (length ws).
Proof.
  destruct s as [|c s]; simpl.
  - split; [discriminate|]. intros (ws & rest & Heq & _). by destruct ws.
  - destruct (isspace c) eqn:Hc.
    + destruct (match_spaces_lt s) as [m|] eqn:Hm; simpl.
      * apply match_spaces_lt_Some in Hm as (ws & rest & -> & Hws & ->). split.
        -- intros [= <-]. exists (c :: ws), rest.
           repeat split; [done|by constructor].
        -- intros (ws' & rest' & Heq & [Hne Hws'] & ->).
           destruct ws' as [|w ws']; [done|]. injection Heq as -> Heq.
           apply Forall_cons in Hws' as [_ Hws'].
           assert (match_spaces_lt (ws ++ chr_lt :: rest) = Some (S (length ws')))
             as Hm' by (apply match_spaces_lt_Some; by exists ws', rest').
           assert (match_spaces_lt (ws ++ chr_lt :: rest) = Some (S (length ws)))
             as Hm'' by (apply match_spaces_lt_Some; by exists ws, rest).
           simpl. congruence.
      * split; [discriminate|].
        intros (ws' & rest' & Heq & [Hne Hws'] & ->).
        destruct ws' as [|w ws']; [done|]. injection Heq as -> Heq.
        apply Forall_cons in Hws' as [_ Hws'].
        assert (match_spaces_lt s = Some (S (length ws')))
          by (apply match_spaces_lt_Some; by exists ws', rest').
        congruence.
    + split; [discriminate|].
      intros (ws' & rest' & Heq & [Hne Hws'] & ->).
      destruct ws' as [|w ws']; [done|]. injection Heq as -> Heq.
      apply Forall_cons in Hws' as [Hw _]. congruence.
Qed.

End Regex.

(** ** What the substitution keeps *)

Section Substitution.
Open Scope nat_scope.

Lemma match_gap_drop s n :
  match_gap s = Some n ->
  exists ws, s = ws ++ chr_lt :: drop n s /\ tag_gap ws.
Proof.
  intros Hm. apply match_gap_Some in Hm as (ws & rest & -> & Hws & ->).
  exists ws. split; [|done].
  change (S (length ws)) with (1 + length ws)%nat.
  rewrite Nat.add_comm, <- drop_drop, drop_app_length. reflexivity.
Qed.

Lemma match_gap_app ws rest :
  tag_gap ws -> match_gap (ws ++ chr_lt :: rest) = Some (S (length ws)).
Proof. intros Hws. apply match_gap_Some. by exists ws, rest. Qed.

(** The scan, case by case: nothing left; a match at the head; a
    character that starts no match. *)
Lemma re_sub_gaps_ind (P : list N -> list N -> Prop) :
  P [] [] ->
  (forall ws rest, tag_gap ws -> P rest (re_sub_gaps rest) ->
     P (chr_gt :: ws ++ chr_lt :: rest) (chr_gt :: chr_lt :: re_sub_gaps rest)) ->
  (forall c s, c <> chr_gt \/ match_gap s = None -> P s (re_sub_gaps s) ->
     P (c :: s) (c :: re_sub_gaps s)) ->
  forall s, P s (re_sub_gaps s).
Proof.
  intros Hnil Hmatch Hcopy s.
  remember (length s) as k eqn:Hk. revert s Hk.
  induction k as [k IH] using lt_wf_ind. intros [|c s] Hk; [exact Hnil|].
  simpl in Hk.
  destruct (N.eq_dec c chr_gt) as [->|Hne].
  - destruct (match_gap s) as [n|] eqn:Hm.
    + rewrite (re_sub_gaps_match s n Hm).
      destruct (match_gap_drop s n Hm) as (ws & Hs & Hws).
      rewrite Hs at 1. apply Hmatch; [exact Hws|].
      apply (IH (length (drop n s))); [|reflexivity].
      rewrite length_drop. apply match_gap_Some in Hm as (? & ? & _ & _ & ->). lia.
    + rewrite re_sub_gaps_copy by by right.
      apply Hcopy; [by right|]. apply (IH (length s)); [lia|reflexivity].
  - rewrite re_sub_gaps_copy by by left.
    apply Hcopy; [by left|]. apply (IH (length s)); [lia|reflexivity].
Qed.

Lemma re_sub_gaps_head s : head (re_sub_gaps s) = head s.
Proof. by apply (re_sub_gaps_ind (fun s out => head out = head s)). Qed.

Lemma re_sub_gaps_last s : last (re_sub_gaps s) = last s.
Proof.
  apply (re_sub_gaps_ind (fun s out => last out = last s)); [done|..].
  - intros ws rest _ IH.
    rewrite (last_cons_cons chr_gt chr_lt), (last_cons chr_lt), IH.
    change (chr_gt :: ws ++ chr_lt :: rest) with ((chr_gt :: ws) ++ chr_lt :: rest).
    by rewrite last_app_cons, last_cons.
  - intros c s' _ IH. by rewrite !last_cons, IH.
Qed.

Lemma match_spaces_lt_re_sub_gaps s :
  match_spaces_lt (re_sub_gaps s) = match_spaces_lt s.
Proof.
  apply (re_sub_gaps_ind (fun s out => match_spaces_lt out = match_spaces_lt s));
    [done|..].
  - intros ws rest _ _. reflexivity.
  - intros c s' _ IH. simpl. by rewrite IH.
Qed.

Lemma match_gap_re_sub_gaps s : match_gap (re_sub_gaps s) = match_gap s.
Proof.
  destruct s as [|c s]; [reflexivity|].
  destruct (N.eq_dec c chr_gt) as [->|Hne].
  - assert (Hhead : head (re_sub_gaps (chr_gt :: s)) = Some chr_gt)
      by apply re_sub_gaps_head.
    destruct (re_sub_gaps (chr_gt :: s)) as [|c' out]; [done|].
    injection Hhead as ->. reflexivity.
  - rewrite re_sub_gaps_copy by by left.
    simpl. by rewrite match_spaces_lt_re_sub_gaps.
Qed.

Lemma re_sub_gaps_idempotent s : re_sub_gaps (re_sub_gaps s) = re_sub_gaps s.
Proof.
  apply (re_sub_gaps_ind (fun _ out => re_sub_gaps out = out)); [done|..].
  - intros ws rest _ IH.
    rewrite re_sub_gaps_copy by (by right).
    rewrite re_sub_gaps_copy by (by left). by rewrite IH.
  - intros c s' Hc IH. rewrite re_sub_gaps_copy; [by rewrite IH|].
    by rewrite match_gap_re_sub_gaps.
Qed.

Lemma re_sub_gaps_length s : length (re_sub_gaps s) <= length s.
Proof.
  apply (re_sub_gaps_ind (fun s out => length out <= length s)); [done|..].
  - intros ws rest _ IH. simpl. rewrite length_app. simpl. lia.
  - intros c s' _ IH. simpl. lia.
Qed.

Lemma has_gap_cons c s :
  has_gap (c :: s) ->
  (c = chr_gt /\ exists n, match_gap s = Some n) \/ has_gap s.
Proof.
  intros (pre & ws & post & Heq & Hws). destruct pre as [|p pre].
  - injection Heq as -> ->. left. split; [done|]. eexists. by apply match_gap_app.
  - injection Heq as -> ->. right. by exists pre, ws, post.
Qed.

(** Where there is a gap, something is deleted. *)
Lemma re_sub_gaps_shorter s : has_gap s -> length (re_sub_gaps s) < length s.
Proof.
  apply (re_sub_gaps_ind (fun s out => has_gap s -> length out < length s)).
  - intros (pre & ws & post & Heq & _). by destruct pre.
  - intros ws rest [Hne _] _ _. pose proof (re_sub_gaps_length rest).
    destruct ws; [done|]. simpl. rewrite length_app. simpl. lia.
  - intros c s' Hc IH Hgap. apply has_gap_cons in Hgap as [[-> [n Hn]]|Hgap].
    + destruct Hc; congruence.
    + specialize (IH Hgap). simpl. lia.
Qed.

Lemma re_sub_gaps_no_gap s : ~ has_gap (re_sub_gaps s).
Proof.
  intros Hgap. apply re_sub_gaps_shorter in Hgap.
  rewrite re_sub_gaps_idempotent in Hgap. lia.
Qed.

Lemma re_sub_gaps_fixed s : ~ has_gap s -> re_sub_gaps s = s.
Proof.
  apply (re_sub_gaps_ind (fun s out => ~ has_gap s -> out = s)); [done|..].
  - intros ws rest Hws _ Hgap. destruct Hgap. by exists [], ws, rest.
  - intros c s' _ IH Hgap. f_equal. apply IH.
    intros (pre & ws & post & -> & Hws). apply Hgap. by exists (c :: pre), ws, post.
Qed.

Lemma re_sub_gaps_nonspace s :
  filter (fun c => isspace c = false) (re_sub_gaps s) =
  filter (fun c => isspace c = false) s.
Proof.
  apply (re_sub_gaps_ind (fun s out =>
    filter (fun c => isspace c = false) out = filter (fun c => isspace c = false) s));
    [done|..].
  - intros ws rest [_ Hws] IH.
    rewrite !filter_cons_True by reflexivity. rewrite IH.
    rewrite filter_app, (filter_cons_True _ chr_lt) by reflexivity.
    replace (filter (fun c => isspace c = false) ws) with (@nil N); [done|].
    symmetry. clear -Hws. induction Hws as [|w ws Hw _ IH]; [done|].
    rewrite filter_cons_False by congruence. exact IH.
  - intros c s' _ IH. by rewrite !filter_cons, IH.
Qed.

Lemma re_sub_gaps_sublist s : re_sub_gaps s `sublist_of` s.
Proof.
  apply (re_sub_gaps_ind (fun s out => out `sublist_of` s)); [constructor|..].
  - intros ws rest _ IH. apply sublist_skip.
    apply sublist_inserts_l. by apply sublist_skip.
  - intros c s' _ IH. by apply sublist_skip.
Qed.

End Substitution.

(** ** Closing the gaps, one at a time *)

Section Gaps.
Open Scope nat_scope.

Lemma closes_gaps_app_l u s t : closes_gaps s t -> closes_gaps (u ++ s) (u ++ t).
Proof.
  induction 1 as [s|pre ws post t Hws _ IH]; [constructor|].
  rewrite app_assoc. apply closes_gaps_step; [done|]. by rewrite <- app_assoc.
Qed.

(** The scan takes out gaps only. *)
Lemma re_sub_gaps_closes s : closes_gaps s (re_sub_gaps s).
Proof.
  apply (re_sub_gaps_ind closes_gaps).
  - constructor.
  - intros ws rest Hws IH. apply (closes_gaps_step []); [done|].
    by apply (closes_gaps_app_l [chr_gt; chr_lt]).
  - intros c s' _ IH. by apply (closes_gaps_app_l [c]).
Qed.

(** No match reaches past a [>]. *)
Lemma match_spaces_lt_before_gt p rest :
  match_spaces_lt (p ++ chr_gt :: rest) = match_spaces_lt p.
Proof.
  induction p as [|c p IH]; [reflexivity|]. simpl. by rewrite IH.
Qed.

Lemma match_gap_before_gt p rest : match_gap (p ++ chr_gt :: rest) = match_gap p.
Proof.
  destruct p as [|c p]; [reflexivity|]. simpl.
  by rewrite match_spaces_lt_before_gt.
Qed.

Lemma match_gap_length s n : match_gap s = Some n -> n <= length s.
Proof.
  intros (ws & rest & -> & _ & ->)%match_gap_Some.
  rewrite length_app. simpl. lia.
Qed.

(** What the scan makes of the text in front of a [>] does not depend
    on what follows it. *)
Lemma re_sub_gaps_app_gt pre tail1 tail2 :
  re_sub_gaps (chr_gt :: tail1) = re_sub_gaps (chr_gt :: tail2) ->
  re_sub_gaps (pre ++ chr_gt :: tail1) = re_sub_gaps (pre ++ chr_gt :: tail2).
Proof.
  intros Htail. remember (length pre) as k eqn:Hk. revert pre Hk.
  induction k as [k IH] using lt_wf_ind. intros [|c pre] Hk; [exact Htail|].
  simpl in Hk. simpl.
  destruct (N.eq_dec c chr_gt) as [->|Hne].
  - destruct (match_gap pre) as [n|] eqn:Hm.
    + pose proof (match_gap_length _ _ Hm) as Hn.
      rewrite !(re_sub_gaps_match _ n) by (by rewrite match_gap_before_gt).
      rewrite !drop_app_le by done. do 2 f_equal.
      apply (IH (length (drop n pre))); [|reflexivity].
      rewrite length_drop. lia.
    + rewrite !re_sub_gaps_copy by (right; by rewrite match_gap_before_gt).
      f_equal. apply (IH (length pre)); [lia|reflexivity].
  - rewrite !re_sub_gaps_copy by (by left). f_equal.
    apply (IH (length pre)); [lia|reflexivity].
Qed.

(** Taking the whitespace out of one gap of the input does not change
    the result. *)
Lemma re_sub_gaps_close_one pre ws post :
  tag_gap ws ->
  re_sub_gaps (pre ++ chr_gt :: ws ++ chr_lt :: post) =
  re_sub_gaps (pre ++ chr_gt :: chr_lt :: post).
Proof.
  intros Hws. apply re_sub_gaps_app_gt.
  rewrite (re_sub_gaps_match _ (S (length ws))) by (by apply match_gap_app).
  rewrite (re_sub_gaps_copy chr_gt) by (by right).
  rewrite (re_sub_gaps_copy chr_lt) by (by left).
  do 2 f_equal. rewrite (cons_middle chr_lt), app_assoc.
  rewrite drop_app_length'; [done|]. rewrite length_app. simpl. lia.
Qed.

(** Closing gaps until none is left leads to one text only. *)
Lemma closes_gaps_unique s t :
  closes_gaps s t -> ~ has_gap t -> re_sub_gaps s = t.
Proof.
  induction 1 as [s|pre ws post t Hws _ IH]; intros Hgap.
  - by apply re_sub_gaps_fixed.
  - rewrite re_sub_gaps_close_one by done. by apply IH.
Qed.

End Gaps.

(** ** [str.strip] *)

Section Strip.
Open Scope nat_scope.

Lemma lstrip_split s :
  exists ws, s = ws ++ lstrip s /\ Forall (fun c => isspace c = true) ws.
Proof.
  induction s as [|c s (ws & Hs & Hws)]; [by exists []|]. simpl.
  destruct (isspace c) eqn:Hc.
  - exists (c :: ws). split; [by rewrite Hs at 1|by constructor].
  - by exists [].
Qed.

Lemma lstrip_starts_solid s : starts_solid (lstrip s).
Proof.
  induction s as [|c s IH]; [by intros ?|]. simpl.
  destruct (isspace c) eqn:Hc; [exact IH|]. by intros ? [= <-].
Qed.

Lemma lstrip_fixed s : starts_solid s -> lstrip s = s.
Proof.
  destruct s as [|c s]; [done|]. intros Hs. simpl. by rewrite (Hs c).
Qed.

Lemma last_lstrip s c : last (lstrip s) = Some c -> last s = Some c.
Proof.
  induction s as [|d s IH]; [done|]. simpl.
  destruct (isspace d); [|done]. intros Hl. rewrite last_cons, (IH Hl). done.
Qed.

Lemma lstrip_sublist s : lstrip s `sublist_of` s.
Proof.
  destruct (lstrip_split s) as (ws & Hs & _). rewrite Hs at 2.
  by apply sublist_inserts_l.
Qed.

Lemma lstrip_nonspace s :
  filter (fun c => isspace c = false) (lstrip s) =
  filter (fun c => isspace c = false) s.
Proof.
  induction s as [|c s IH]; [done|]. simpl.
  destruct (isspace c) eqn:Hc; [|done].
  rewrite filter_cons_False by congruence. exact IH.
Qed.

Lemma strip_starts_solid s : starts_solid (strip s).
Proof.
  intros c. unfold strip, rstrip. rewrite head_reverse. intros Hl.
  apply last_lstrip in Hl. rewrite last_reverse in Hl.
  by apply (lstrip_starts_solid s).
Qed.

Lemma strip_ends_solid s : ends_solid (strip s).
Proof.
  intros c. unfold strip, rstrip. rewrite last_reverse.
  apply lstrip_starts_solid.
Qed.

Lemma strip_fixed s : starts_solid s -> ends_solid s -> strip s = s.
Proof.
  intros Hh Hl. unfold strip, rstrip. rewrite (lstrip_fixed s Hh).
  rewrite lstrip_fixed; [apply reverse_involutive|].
  intros c. rewrite head_reverse. apply Hl.
Qed.

Lemma rstrip_split s :
  exists ws, s = rstrip s ++ ws /\ Forall (fun c => isspace c = true) ws.
Proof.
  destruct (lstrip_split (reverse s)) as (ws & Hs & Hws).
  exists (reverse ws). split; [|by apply Forall_reverse].
  unfold rstrip. rewrite <- reverse_app, <- Hs. by rewrite reverse_involutive.
Qed.

(** [strip] takes whitespace off both ends and nothing else. *)
Lemma strip_split s :
  exists ws1 ws2, s = ws1 ++ strip s ++ ws2 /\
    Forall (fun c => isspace c = true) ws1 /\ Forall (fun c => isspace c = true) ws2.
Proof.
  destruct (lstrip_split s) as (ws1 & Hs1 & Hws1).
  destruct (rstrip_split (lstrip s)) as (ws2 & Hs2 & Hws2).
  exists ws1, ws2. split; [|done]. unfold strip. by rewrite <- Hs2.
Qed.

Lemma strip_sublist s : strip s `sublist_of` s.
Proof.
  destruct (strip_split s) as (ws1 & ws2 & Hs & _). rewrite Hs at 2.
  by apply sublist_inserts_l, sublist_inserts_r.
Qed.

Lemma filter_spaces_nil ws :
  Forall (fun c => isspace c = true) ws ->
  filter (fun c => isspace c = false) ws = [].
Proof.
  induction 1 as [|w ws Hw _ IH]; [done|].
  rewrite filter_cons_False by congruence. exact IH.
Qed.

Lemma strip_nonspace s :
  filter (fun c => isspace c = false) (strip s) =
  filter (fun c => isspace c = false) s.
Proof.
  destruct (strip_split s) as (ws1 & ws2 & Hs & Hws1 & Hws2). rewrite Hs at 2.
  rewrite !filter_app, (filter_spaces_nil ws1), (filter_spaces_nil ws2) by done.
  by rewrite app_nil_r.
Qed.

Lemma strip_nil s : strip s = [] <-> Forall (fun c => isspace c = true) s.
Proof.
  split.
  - intros Hnil. destruct (strip_split s) as (ws1 & ws2 & Hs & Hws1 & Hws2).
    rewrite Hs, Hnil. by apply Forall_app.
  - intros Hs. assert (Hl : lstrip s = []).
    { induction Hs as [|c s Hc _ IH]; [done|]. simpl. by rewrite Hc. }
    unfold strip. by rewrite Hl.
Qed.

Lemma minify_solid html : starts_solid (_minify html) /\ ends_solid (_minify html).
Proof.
  unfold _minify, starts_solid, ends_solid.
  rewrite re_sub_gaps_head, re_sub_gaps_last.
  split; [apply strip_starts_solid|apply strip_ends_solid].
Qed.

End Strip.

(** ** Properties of [_minify] *)

(** X8: the result is in normal form: it neither starts nor ends with
    whitespace, no whitespace-only run is left between a [>] and the
    next [<], and minifying it again changes nothing. *)
Theorem X8_minify_normal_form (html : list N) :
  starts_solid (_minify html) /\ ends_solid (_minify html) /\
  ~ has_gap (_minify html) /\
  _minify (_minify html) = _minify html.
Proof.
  destruct (minify_solid html) as [Hh Hl].
  split; [exact Hh|]. split; [exact Hl|]. split.
  - apply re_sub_gaps_no_gap.
  - unfold _minify at 1. rewrite (strip_fixed _ Hh Hl).
    unfold _minify. apply re_sub_gaps_idempotent.
Qed.

(** X9: only whitespace is ever deleted: the result is a subsequence of the
    input with the same non-whitespace characters in the same order,
    and it is empty exactly when the input is all whitespace. *)
Theorem X9_minify_deletes_whitespace_only (html : list N) :
  _minify html `sublist_of` html /\
  filter (fun c => isspace c = false) (_minify html) =
  filter (fun c => isspace c = false) html /\
  (_minify html = [] <-> Forall (fun c => isspace c = true) html).
Proof.
  unfold _minify. split; [|split].
  - etrans; [apply re_sub_gaps_sublist|apply strip_sublist].
  - by rewrite re_sub_gaps_nonspace, strip_nonspace.
  - rewrite <- strip_nil. split; [|by intros ->].
    intros Hnil. pose proof (re_sub_gaps_head (strip html)) as Hh.
    rewrite Hnil in Hh. by destruct (strip html).
Qed.

(** X10: inside the text only the gaps between tags are touched, on
    every input. The input is whitespace, the stripped text, whitespace;
    the result is the one text without a gap that arises from the
    stripped text by taking out whitespace runs that stand between a
    [>] and a [<], whole runs and nothing else. So whitespace anywhere
    else, line breaks included, stays, and the stripped text comes back
    unchanged exactly when it holds no gap. *)
Theorem X10_minify_changes_gaps_only (html : list N) :
  (exists ws1 ws2,
     html = ws1 ++ strip html ++ ws2 /\
     Forall (fun c => isspace c = true) ws1 /\
     Forall (fun c => isspace c = true) ws2 /\
     starts_solid (strip html) /\ ends_solid (strip html)) /\
  (forall t, _minify html = t <-> closes_gaps (strip html) t /\ ~ has_gap t) /\
  (_minify html = strip html <-> ~ has_gap (strip html)).
Proof.
  unfold _minify. split; [|split].
  - destruct (strip_split html) as (ws1 & ws2 & Hs & H1 & H2).
    exists ws1, ws2. split; [exact Hs|]. split; [exact H1|]. split; [exact H2|].
    split; [apply strip_starts_solid|apply strip_ends_solid].
  - intros t. split.
    + intros <-. split; [apply re_sub_gaps_closes|apply re_sub_gaps_no_gap].
    + intros [Hc Hgap]. by apply closes_gaps_unique.
  - split.
    + intros Heq Hgap. apply re_sub_gaps_shorter in Hgap. rewrite Heq in Hgap. lia.
    + apply re_sub_gaps_fixed.
Qed.

(** A panel whose text stands on lines of its own keeps its line breaks
    (code point 10). *)
Example minify_keeps_line_breaks_in_text :
  _minify (text "<div>" ++ [10%N] ++ text "  No data" ++ [10%N] ++
           text "</div>" ++ [10%N]) =
  text "<div>" ++ [10%N] ++ text "  No data" ++ [10%N] ++ text "</div>".
Proof. vm_compute. reflexivity. Qed.

(** * The figures of the response builder *)

(** ** Order and rounding of binary64 numbers *)

Section FloatOrder.

Lemma flt_pos x : flt f_0 x = true <-> fsign x = Some false.
Proof. destruct x as [[]|[]| |[] m e]; cbn; split; congruence. Qed.

Lemma flt_neg x : flt x f_0 = true <-> fsign x = Some true.
Proof. destruct x as [[]|[]| |[] m e]; cbn; split; congruence. Qed.

Lemma feq_zero x : feq x f_0 = true <-> exists s, x = S754_zero s.
Proof.
  destruct x as [s|[]| |[] m e]; cbn; split; try congruence; eauto;
    intros [? [=]].
Qed.

Lemma digits2_pos_bounds m :
  2 ^ (Zpos (digits2_pos m) - 1) <= Zpos m < 2 ^ Zpos (digits2_pos m).
Proof.
  induction m as [m IH|m IH|]; cbn [digits2_pos]; [| |cbn; lia].
  all: rewrite Pos2Z.inj_succ;
    replace (Z.succ (Zpos (digits2_pos m)) - 1)
      with (Z.succ (Zpos (digits2_pos m) - 1)) by lia;
    rewrite !Z.pow_succ_r by lia; lia.
Qed.

Lemma Zdigits2_le m k : 0 <= k -> 0 <= m <= 2 ^ k -> Zdigits2 m <= k + 1.
Proof.
  intros Hk [Hm Hle]. destruct m as [|m|m]; cbn [Zdigits2]; [lia| |lia].
  pose proof (digits2_pos_bounds m) as [Hd _].
  assert (H : 2 ^ (Zpos (digits2_pos m) - 1) <= 2 ^ k) by lia.
  apply Z.pow_le_mono_r_iff in H; lia.
Qed.

Lemma shr_m_of_loc m l : shr_m (shr_record_of_loc m l) = m.
Proof. by destruct l as [|[]]. Qed.

Lemma shr_1_below k mrs :
  1 <= k -> below_pow k mrs -> below_pow (k - 1) (shr_1 mrs).
Proof.
  intros Hk. destruct mrs as [m r s]. unfold below_pow. cbn [shr_m shr_r shr_s].
  assert (Hp : 2 ^ k = 2 * 2 ^ (k - 1)).
  { rewrite <- Z.pow_succ_r by lia. f_equal. lia. }
  assert (H0 : 0 < 2 ^ (k - 1)) by (apply Z.pow_pos_nonneg; lia).
  intros [Hm H]. destruct m as [|[p|p|]|p]; cbn [shr_1 shr_m shr_r shr_s]; try lia.
  all: destruct H as [H|(H & -> & ->)]; try lia.
  all: split; [lia|right]; repeat split; lia.
Qed.

Lemma iter_shr_1_below p : forall k mrs,
  Zpos p <= k -> below_pow k mrs ->
  below_pow (k - Zpos p) (SpecFloat.iter_pos shr_1 p mrs).
Proof.
  induction p as [p IH|p IH|]; intros k mrs Hk H; cbn [SpecFloat.iter_pos].
  - replace (k - Zpos p~1) with (k - 1 - Zpos p - Zpos p) by lia.
    apply IH; [lia|]. apply IH; [lia|]. apply shr_1_below; [lia|done].
  - replace (k - Zpos p~0) with (k - Zpos p - Zpos p) by lia.
    apply IH; [lia|]. apply IH; [lia|done].
  - apply shr_1_below; [lia|done].
Qed.

Lemma round_below k mrs :
  0 <= k -> below_pow k mrs ->
  0 <= round_nearest_even (shr_m mrs) (loc_of_shr_record mrs) <= 2 ^ k.
Proof.
  intros Hk [Hm H]. destruct mrs as [m [] []]; cbn in *;
    try destruct (Z.even m); lia.
Qed.

Lemma below_pow_exact k m : 0 <= m <= 2 ^ k -> below_pow k (Build_shr_record m false false).
Proof. unfold below_pow. cbn. lia. Qed.

(** A value of at most one stays so when it is shifted to the canonical
    exponent. *)
Lemma shr_fexp_below m k l mrs e :
  52 <= k -> below_pow k (shr_record_of_loc m l) ->
  shr_fexp prec emax m (- k) l = (mrs, e) ->
  e <= -52 /\ below_pow (- e) mrs.
Proof.
  intros Hk H. pose proof H as [Hm Hb]. rewrite shr_m_of_loc in Hm, Hb.
  assert (Hd : Zdigits2 m <= k + 1) by (apply Zdigits2_le; lia).
  unfold shr_fexp, shr.
  destruct (fexp prec emax (Zdigits2 m + - k) - - k) as [|p|p] eqn:Hn;
    intros [= <- <-].
  - split; [lia|]. by rewrite Z.opp_involutive.
  - assert (Hp : Zpos p <= k - 52) by fexp_lia.
    split; [lia|].
    replace (- (- k + Zpos p)) with (k - Zpos p) by lia.
    apply iter_shr_1_below; [lia|done].
  - split; [lia|]. by rewrite Z.opp_involutive.
Qed.

Lemma flt_1_finite m e :
  e <= -52 -> Zpos m <= 2 ^ (- e) -> flt f_1 (S754_finite false m e) = false.
Proof.
  intros He Hm. unfold flt, SFltb, f_1, M52. cbn [SFcompare].
  destruct (Z.compare_spec (-52) e) as [<-|Hlt|Hgt]; [|lia|done].
  change (Pos.compare_cont Eq ?a ?b) with (Pos.compare a b).
  destruct (Pos.compare_spec 4503599627370496 m) as [_|Hlt|_]; [done| |done].
  change (2 ^ (- -52)) with 4503599627370496 in Hm. lia.
Qed.

(** Rounding a value at most one gives at most one. *)
Lemma binary_round_aux_le_one m k l :
  52 <= k -> below_pow k (shr_record_of_loc m l) ->
  flt f_1 (binary_round_aux prec emax false m (- k) l) = false.
Proof.
  intros Hk H. unfold binary_round_aux.
  destruct (shr_fexp prec emax m (- k) l) as [mrs1 e1] eqn:H1.
  apply shr_fexp_below in H1 as [He1 Hb1]; [|done..].
  pose proof (round_below (- e1) mrs1 ltac:(lia) Hb1) as Hr.
  set (m2 := round_nearest_even _ _) in *.
  destruct (shr_fexp prec emax m2 e1 loc_Exact) as [mrs2 e2] eqn:H2.
  replace e1 with (- - e1) in H2 by lia.
  apply shr_fexp_below in H2 as [He2 Hb2];
    [|lia|by apply below_pow_exact].
  destruct Hb2 as [Hm2 Hb2].
  destruct (shr_m mrs2) as [|p|p] eqn:Hp; [done| |done].
  replace (e2 <=? emax - prec) with true
    by (symmetry; apply Z.leb_le; unfold emax, prec; lia).
  apply flt_1_finite; lia.
Qed.

Lemma binary_round_aux_sign s m e l s' :
  fsign (binary_round_aux prec emax s m e l) = Some s' -> s' = s.
Proof.
  unfold binary_round_aux.
  destruct (shr_fexp prec emax m e l) as [mrs1 e1].
  destruct (shr_fexp _ _ _ _ _) as [mrs2 e2].
  destruct (shr_m mrs2); [done| |done].
  destruct (_ <=? _); cbn; congruence.
Qed.

Lemma pos_iter_xO m d : Zpos (Pos.iter xO m d) = Zpos m * 2 ^ Zpos d.
Proof.
  induction d as [|d IH] using Pos.peano_ind.
  - cbn. lia.
  - rewrite Pos.iter_succ, Pos2Z.inj_succ, Z.pow_succ_r by lia.
    rewrite Pos2Z.inj_xO, IH. lia.
Qed.

Lemma shl_align_fst m e ez :
  ez <= e -> Zpos (shl_align m e ez).1 = Zpos m * 2 ^ (e - ez).
Proof.
  intros He. unfold shl_align.
  destruct (ez - e) as [|d|d] eqn:Hd; cbn [fst]; [|lia|].
  - replace (e - ez) with 0 by lia. lia.
  - rewrite pos_iter_xO. f_equal. f_equal. lia.
Qed.

(** The order of two binary64 numbers is the order of their mantissas
    at the smaller of the two exponents. *)
Lemma SFcompare_finite s1 m1 e1 s2 m2 e2 :
  is_float (S754_finite s1 m1 e1) -> is_float (S754_finite s2 m2 e2) ->
  SFcompare (S754_finite s1 m1 e1) (S754_finite s2 m2 e2) =
  Some (scaled s1 m1 e1 (Z.min e1 e2) ?= scaled s2 m2 e2 (Z.min e1 e2)).
Proof.
  intros H1 H2. apply is_float_finite in H1, H2.
  pose proof (digits2_pos_bounds m1) as B1.
  pose proof (digits2_pos_bounds m2) as B2.
  assert (Hmag :
    match e1 ?= e2 with
    | Lt => Lt | Gt => Gt | Eq => Pos.compare_cont Eq m1 m2
    end = (Zpos m1 * 2 ^ (e1 - Z.min e1 e2) ?= Zpos m2 * 2 ^ (e2 - Z.min e1 e2))).
  { destruct (Z.compare_spec e1 e2) as [->|Hlt|Hgt].
    - rewrite Z.min_id, Z.sub_diag, !Z.mul_1_r. done.
    - symmetry. apply Z.compare_lt_iff.
      rewrite Z.min_l, Z.sub_diag, Z.mul_1_r by lia.
      assert (2 ^ 1 <= 2 ^ (e2 - e1)) by (apply Z.pow_le_mono_r; lia).
      assert (Zpos (digits2_pos m2) = 53) by lia.
      assert (Zpos m1 < 2 ^ 53).
      { eapply Z.lt_le_trans; [apply B1|]. apply Z.pow_le_mono_r; lia. }
      replace (Zpos (digits2_pos m2) - 1) with 52 in B2 by lia.
      nia.
    - symmetry. apply Z.compare_gt_iff.
      rewrite Z.min_r, Z.sub_diag, Z.mul_1_r by lia.
      assert (2 ^ 1 <= 2 ^ (e1 - e2)) by (apply Z.pow_le_mono_r; lia).
      assert (Zpos (digits2_pos m1) = 53) by lia.
      assert (Zpos m2 < 2 ^ 53).
      { eapply Z.lt_le_trans; [apply B2|]. apply Z.pow_le_mono_r; lia. }
      replace (Zpos (digits2_pos m1) - 1) with 52 in B1 by lia.
      nia. }
  assert (P1 : 0 < Zpos m1 * 2 ^ (e1 - Z.min e1 e2)).
  { apply Z.mul_pos_pos; [lia|]. apply Z.pow_pos_nonneg; lia. }
  assert (P2 : 0 < Zpos m2 * 2 ^ (e2 - Z.min e1 e2)).
  { apply Z.mul_pos_pos; [lia|]. apply Z.pow_pos_nonneg; lia. }
  unfold scaled. cbn [SFcompare]. f_equal.
  destruct s1, s2; cbn [cond_Zopp].
  - rewrite Z.compare_opp, (Z.compare_antisym _ (Zpos m2 * _)), <- Hmag.
    by destruct (e1 ?= e2).
  - symmetry. apply Z.compare_lt_iff. lia.
  - symmetry. apply Z.compare_gt_iff. lia.
  - done.
Qed.


Lemma binary_normalize_sign z e s :
  fsign (binary_normalize prec emax z e false) = Some s ->
  if s then z < 0 else 0 < z.
Proof.
  destruct z as [|m|m]; cbn [binary_normalize]; [done| |].
  all: unfold binary_round; destruct (shl_align _ _ _) as [mz ez];
    intros ->%binary_round_aux_sign; lia.
Qed.

(** The sign of a difference tells which operand is the larger. *)
Lemma fsub_sign x y s :
  is_float x -> is_float y -> fsign (fsub x y) = Some s ->
  if s then flt x y = true else flt y x = true.
Proof.
  intros Hx Hy.
  destruct x as [sx|sx| |sx mx ex], y as [sy|sy| |sy my ey]; unfold fsub;
    cbn [SFsub fsign]; try done;
    try (by destruct sx, sy; intros [= <-]);
    try (by destruct sx; intros [= <-]);
    try (by destruct sy; intros [= <-]).
  cbv zeta. intros H%binary_normalize_sign.
  rewrite !shl_align_fst in H by lia.
  fold (scaled sx mx ex (Z.min ex ey)) in H.
  fold (scaled sy my ey (Z.min ex ey)) in H.
  unfold flt, SFltb. destruct s.
  - rewrite SFcompare_finite by done.
    by replace (_ ?= _) with Lt by (symmetry; apply Z.compare_lt_iff; lia).
  - rewrite SFcompare_finite, (Z.min_comm ey ex) by done.
    by replace (_ ?= _) with Lt by (symmetry; apply Z.compare_lt_iff; lia).
Qed.

Lemma fmul_100_sign x s : fsign (fmul x f_100) = Some s -> fsign x = Some s.
Proof.
  destruct x as [sx|sx| |sx mx ex]; cbn; try done.
  - by rewrite xorb_false_r.
  - unfold fmul, SFmul, f_100. intros ->%binary_round_aux_sign.
    by rewrite xorb_false_r.
Qed.

Lemma fdiv_pos_sign x y s :
  fsign y = Some false -> fsign (fdiv x y) = Some s -> fsign x = Some s.
Proof.
  destruct y as [sy|sy| |sy my ey]; intros [= ->];
    destruct x as [sx|sx| |sx mx ex]; cbn; try done.
  - by rewrite xorb_false_r.
  - unfold fdiv, SFdiv. destruct (SFdiv_core_binary _ _ _ _ _ _) as [[mz ez] lz].
    intros ->%binary_round_aux_sign. by rewrite xorb_false_r.
Qed.

Lemma fsub_diag x :
  fsign x <> None -> x <> S754_infinity false -> x <> S754_infinity true ->
  fsub x x = f_0.
Proof.
  destruct x as [sx|[]| |sx mx ex]; try done. intros _ _ _.
  unfold fsub, SFsub. cbv zeta. by rewrite Z.min_id, Z.sub_diag.
Qed.

Lemma new_location_0 n : new_location n 0 = loc_Exact.
Proof. unfold new_location. by destruct (Z.even n). Qed.

(** The quotient of a binary64 number by itself is exactly one. *)
Lemma fdiv_diag s m e : fdiv (S754_finite s m e) (S754_finite s m e) = f_1.
Proof.
  unfold fdiv, SFdiv, SFdiv_core_binary. cbv zeta.
  replace (Zdigits2 (Zpos m) + e - (Zdigits2 (Zpos m) + e)) with 0 by lia.
  rewrite Z.sub_diag.
  change (Z.min (fexp prec emax 0) 0) with (-53).
  change (0 - -53) with 53.
  rewrite (div_eucl_unique _ (Zpos m) (2 ^ 53) 0);
    [|lia|rewrite shiftl_pos by lia; lia].
  rewrite new_location_0, xorb_nilpotent. by vm_compute.
Qed.

(** A quotient of positive binary64 numbers exceeds one only if the
    dividend exceeds the divisor. *)
Lemma fdiv_gt_one mx ex my ey :
  is_float (S754_finite false mx ex) -> is_float (S754_finite false my ey) ->
  flt (S754_finite false my ey) (S754_finite false mx ex) = false ->
  flt f_1 (fdiv (S754_finite false mx ex) (S754_finite false my ey)) = false.
Proof.
  intros Hx Hy. unfold flt at 1, SFltb. rewrite SFcompare_finite by done.
  unfold scaled. cbn [cond_Zopp].
  set (ez := Z.min ey ex).
  destruct (Z.compare_spec (Zpos my * 2 ^ (ey - ez)) (Zpos mx * 2 ^ (ex - ez)))
    as [Hc|Hc|Hc]; [|done|]; intros _.
  all: assert (Hle : Zpos mx * 2 ^ (ex - ez) <= Zpos my * 2 ^ (ey - ez)) by lia;
    clear Hc.
  all: pose proof (digits2_pos_bounds mx) as [Bx _];
    pose proof (digits2_pos_bounds my) as [_ By].
  all: assert (Hd : Zpos (digits2_pos mx) + ex <= Zpos (digits2_pos my) + ey).
  1,3: (assert (Hp : 2 ^ (Zpos (digits2_pos mx) - 1 + (ex - ez))
                    < 2 ^ (Zpos (digits2_pos my) + (ey - ez)));
    [ rewrite !Z.pow_add_r by lia;
      assert (0 < 2 ^ (ex - ez)) by (apply Z.pow_pos_nonneg; lia);
      assert (0 < 2 ^ (ey - ez)) by (apply Z.pow_pos_nonneg; lia);
      nia
    | apply Z.pow_lt_mono_r_iff in Hp; lia ]).
  all: unfold fdiv, SFdiv, SFdiv_core_binary; cbv zeta;
    cbn [Zdigits2 xorb];
    set (e' := Z.min _ (ex - ey));
    assert (He' : e' <= -53) by (subst e'; fexp_lia);
    assert (Hs : 0 <= ex - ey - e') by (subst e'; lia);
    set (m' := match ex - ey - e' with Z0 => _ | Zpos _ => _ | Zneg _ => _ end);
    assert (Hm' : m' = Zpos mx * 2 ^ (ex - ey - e'))
      by (subst m'; destruct (ex - ey - e') eqn:E;
          [lia | by rewrite shiftl_pos | lia]);
    clearbody m'; subst m';
    pose proof (Z_div_mod (Zpos mx * 2 ^ (ex - ey - e')) (Zpos my) ltac:(lia))
      as Hqr;
    destruct (Z.div_eucl _ _) as [q r]; destruct Hqr as [Hq Hr];
    replace e' with (- - e') by lia;
    apply binary_round_aux_le_one; [lia|];
    assert (Hbound : Zpos mx * 2 ^ (ex - ey - e') <= Zpos my * 2 ^ (- e')).
  1,3: (destruct (Z.min_spec ey ex) as [[_ Hz]|[_ Hz]]; fold ez in Hz;
    rewrite Hz, ?Z.sub_diag, ?Z.mul_1_r in Hle;
    [ replace (ex - ey - e') with ((ex - ey) + - e') by lia;
      rewrite Z.pow_add_r by lia;
      assert (0 < 2 ^ (- e')) by (apply Z.pow_pos_nonneg; lia); nia
    | replace (- e') with ((ey - ex) + (ex - ey - e')) by lia;
      rewrite Z.pow_add_r by lia;
      assert (0 < 2 ^ (ex - ey - e')) by (apply Z.pow_pos_nonneg; lia); nia ]).
  all: assert (Hq0 : 0 <= q)
    by (assert (0 <= Zpos mx * 2 ^ (ex - ey - e'))
          by (apply Z.mul_nonneg_nonneg; [lia|apply Z.pow_nonneg; lia]); nia).
  all: assert (Hq1 : q <= 2 ^ (- e')) by nia.
  all: destruct (Z.eq_dec q (2 ^ (- e'))) as [Heq|Hne];
    [ assert (r = 0) by nia; subst r; rewrite new_location_0;
      apply below_pow_exact; lia
    | split; rewrite shr_m_of_loc; [lia|left; lia] ].
Qed.

End FloatOrder.

(** ** The badge of a percentage *)

Section Badges.

Lemma badge_blue_green b1 b2 : badge_html "badge-blue" b1 <> badge_html "badge-green" b2.
Proof. cbn. discriminate. Qed.

Lemma badge_blue_red b1 b2 : badge_html "badge-blue" b1 <> badge_html "badge-red" b2.
Proof. cbn. discriminate. Qed.

Lemma badge_green_red b1 b2 : badge_html "badge-green" b1 <> badge_html "badge-red" b2.
Proof. cbn. discriminate. Qed.

Lemma format_pct_zero fmt1 s :
  _format_pct fmt1 (S754_zero s) = badge_html "badge-blue" "-".
Proof. done. Qed.

Lemma format_pct_pos fmt1 v :
  flt f_0 v = true ->
  _format_pct fmt1 v = badge_html "badge-green" ("▲" +:+ " " +:+ fmt1 (fabs v) +:+ "%").
Proof.
  intros H. unfold _format_pct. rewrite H.
  by destruct v as [[]|[]| |[] m e].
Qed.

Lemma format_pct_other fmt1 v :
  feq v f_0 = false -> flt f_0 v = false ->
  _format_pct fmt1 v = badge_html "badge-red" ("▼" +:+ " " +:+ fmt1 (fabs v) +:+ "%").
Proof. intros H1 H2. unfold _format_pct. by rewrite H1, H2. Qed.

Lemma float_trichotomy v :
  (exists s, v = S754_zero s) \/ flt f_0 v = true \/ flt v f_0 = true \/ v = S754_nan.
Proof. destruct v as [s|[]| |[] m e]; cbn; eauto. Qed.

Lemma format_pct_cases fmt1 v :
  ((exists s, v = S754_zero s) /\ _format_pct fmt1 v = badge_html "badge-blue" "-") \/
  (flt f_0 v = true /\
   _format_pct fmt1 v = badge_html "badge-green" ("▲" +:+ " " +:+ fmt1 (fabs v) +:+ "%")) \/
  ((flt v f_0 = true \/ v = S754_nan) /\
   _format_pct fmt1 v = badge_html "badge-red" ("▼" +:+ " " +:+ fmt1 (fabs v) +:+ "%")).
Proof.
  destruct (float_trichotomy v) as [[s ->]|[H|H]].
  - left. eauto using format_pct_zero.
  - right; left. eauto using format_pct_pos.
  - right; right. split; [done|]. apply format_pct_other.
    + destruct H as [H| ->]; [|done]. by destruct v as [[]|[]| |[] m e].
    + destruct H as [H| ->]; [|done]. by destruct v as [[]|[]| |[] m e].
Qed.

End Badges.

(** ** Where NaN cannot come from *)

Section NotNan.

Lemma shr_1_nonneg mrs : 0 <= shr_m mrs -> 0 <= shr_m (shr_1 mrs).
Proof. destruct mrs as [[|[p|p|]|p] r s]; cbn; lia. Qed.

Lemma iter_shr_1_nonneg p : forall mrs,
  0 <= shr_m mrs -> 0 <= shr_m (SpecFloat.iter_pos shr_1 p mrs).
Proof.
  induction p as [p IH|p IH|]; intros mrs H; cbn [SpecFloat.iter_pos];
    auto using shr_1_nonneg.
Qed.

Lemma shr_fexp_nonneg m e l :
  0 <= m -> 0 <= shr_m (shr_fexp prec emax m e l).1.
Proof.
  intros Hm. unfold shr_fexp, shr.
  destruct (_ - e) as [|p|p]; cbn [fst]; rewrite ?shr_m_of_loc; try done.
  apply iter_shr_1_nonneg. by rewrite shr_m_of_loc.
Qed.

Lemma round_nearest_even_nonneg m l : 0 <= m -> 0 <= round_nearest_even m l.
Proof. intros Hm. destruct l as [|[]]; cbn; try destruct (Z.even m); lia. Qed.

(** Rounding a mantissa that is not negative never gives NaN. *)
Lemma binary_round_aux_not_nan s m e l :
  0 <= m -> binary_round_aux prec emax s m e l <> S754_nan.
Proof.
  intros Hm. unfold binary_round_aux.
  pose proof (shr_fexp_nonneg m e l Hm) as H1.
  destruct (shr_fexp prec emax m e l) as [mrs1 e1]. cbn [fst] in H1.
  pose proof (shr_fexp_nonneg _ e1 loc_Exact
    (round_nearest_even_nonneg _ (loc_of_shr_record mrs1) H1)) as H2.
  destruct (shr_fexp _ _ _ _ _) as [mrs2 e2]. cbn [fst] in H2.
  destruct (shr_m mrs2); [done| |lia]. by destruct (_ <=? _).
Qed.

Lemma fsub_finite_not_nan sx mx ex sy my ey :
  fsub (S754_finite sx mx ex) (S754_finite sy my ey) <> S754_nan.
Proof.
  unfold fsub, SFsub. cbv zeta. destruct (_ - _) as [|m|m];
    cbn [binary_normalize]; [done| |].
  all: unfold binary_round; destruct (shl_align _ _ _) as [mz ez];
    by apply binary_round_aux_not_nan.
Qed.

Lemma fdiv_finite_not_nan sx mx ex sy my ey :
  fdiv (S754_finite sx mx ex) (S754_finite sy my ey) <> S754_nan.
Proof.
  unfold fdiv, SFdiv, SFdiv_core_binary. cbv zeta.
  set (m' := match _ - _ - _ with Z0 => _ | Zpos _ => _ | Zneg _ => _ end).
  assert (Hm' : 0 <= m').
  { subst m'. destruct (_ - _ - _); [lia| |lia]. by apply Z.shiftl_nonneg. }
  pose proof (Z_div_mod m' (Zpos my) ltac:(lia)) as Hqr.
  destruct (Z.div_eucl _ _) as [q r].
  apply binary_round_aux_not_nan. nia.
Qed.

Lemma fmul_100_nan x : fmul x f_100 = S754_nan -> x = S754_nan.
Proof.
  destruct x as [sx|sx| |sx mx ex]; try done.
  unfold fmul, SFmul, f_100. intros H.
  by apply binary_round_aux_not_nan in H.
Qed.

Lemma fdiv_pos_nan x y :
  fsign y = Some false -> y <> S754_infinity false ->
  fdiv x y = S754_nan -> x = S754_nan.
Proof.
  destruct y as [sy|sy| |sy my ey]; intros [= ->] Hy; [done|].
  destruct x as [sx|sx| |sx mx ex]; try done.
  intros H. by apply fdiv_finite_not_nan in H.
Qed.

Lemma fsub_nan x y :
  fsign y = Some false -> y <> S754_infinity false ->
  fsub x y = S754_nan -> x = S754_nan.
Proof.
  destruct y as [sy|sy| |sy my ey]; intros [= ->] Hy; [done|].
  destruct x as [sx|sx| |sx mx ex]; try done.
  intros H. by apply fsub_finite_not_nan in H.
Qed.

End NotNan.

(** ** The year-over-year change of a price *)

Section YearOverYear.

Lemma yoy_change_default p_cur p_prev :
  flt f_0 p_prev = false -> yoy_change p_cur p_prev = f_0.
Proof. unfold yoy_change. by intros ->. Qed.

Lemma yoy_change_sign p_cur p_prev s :
  is_float p_cur -> is_float p_prev ->
  fsign (yoy_change p_cur p_prev) = Some s ->
  flt f_0 p_prev = true /\
  if s then flt p_cur p_prev = true else flt p_prev p_cur = true.
Proof.
  intros Hc Hp. unfold yoy_change.
  destruct (flt f_0 p_prev) eqn:Hpos; [|done].
  intros H%fmul_100_sign. apply fdiv_pos_sign in H; [|by apply flt_pos].
  split; [done|]. by apply fsub_sign.
Qed.

Lemma yoy_change_nan p_cur p_prev :
  yoy_change p_cur p_prev = S754_nan ->
  p_cur = S754_nan \/ p_prev = S754_infinity false.
Proof.
  unfold yoy_change. destruct (flt f_0 p_prev) eqn:Hpos; [|done].
  apply flt_pos in Hpos.
  assert (Hd : p_prev = S754_infinity false \/ p_prev <> S754_infinity false)
    by (destruct p_prev as [sy|[]| |sy my ey]; auto).
  destruct Hd as [|Hinf]; [by right|].
  intros H%fmul_100_nan. apply fdiv_pos_nan in H; [|done..].
  apply fsub_nan in H; auto.
Qed.

Lemma yoy_change_same p :
  flt f_0 p = true -> p <> S754_infinity false -> yoy_change p p = f_0.
Proof.
  intros Hpos Hinf. unfold yoy_change. rewrite Hpos. apply flt_pos in Hpos.
  rewrite fsub_diag; [|congruence|done|by intros ->].
  destruct p as [sy|sy| |sy my ey]; try done.
  - by destruct sy.
  - by injection Hpos as ->.
Qed.

Lemma truediv_pos x y : flt f_0 y = true -> truediv x y = Some (fdiv x y).
Proof.
  intros Hpos%flt_pos. unfold truediv.
  by destruct y as [sy|sy| |sy my ey]; try done; injection Hpos as ->.
Qed.

(** The guard [p_prev > 0] keeps the division from failing. *)
Lemma yoy_price_Some p_cur p_prev :
  yoy_price p_cur p_prev = Some (yoy_change p_cur p_prev).
Proof.
  unfold yoy_price, yoy_change. destruct (flt f_0 p_prev) eqn:Hpos; [|done].
  by rewrite truediv_pos.
Qed.

End YearOverYear.

(** ** The ratio of the bids *)

Section Dominance.

Lemma flt_1_sign x : flt f_1 x = true -> fsign x = Some false.
Proof. by destruct x as [[]|[]| |[] m e]. Qed.

Lemma fdiv_exceeds_one x y :
  is_float x -> is_float y -> flt f_0 y = true ->
  flt f_1 (fdiv x y) = true -> flt y x = true.
Proof.
  intros Hx Hy Hpos%flt_pos H.
  destruct y as [sy|sy| |sy my ey]; try done; injection Hpos as ->.
  - by destruct x as [sx|sx| |sx mx ex].
  - destruct x as [sx|[]| |[] mx ex]; try done.
    + apply flt_1_sign in H. unfold fdiv, SFdiv in H.
      destruct (SFdiv_core_binary _ _ _ _ _ _) as [[mz ez] lz].
      by apply binary_round_aux_sign in H.
    + destruct (flt (S754_finite false my ey) (S754_finite false mx ex)) eqn:E;
        [done|].
      by rewrite fdiv_gt_one in H.
Qed.

End Dominance.

(** X11: [_format_pct]: the badge is blue exactly for a zero of either sign,
    green exactly for a positive value, and red for a negative value and
    for NaN; apart from the blue dash the text is an arrow and the
    formatted magnitude. *)
Theorem X11_format_pct_badge (fmt1 : float -> string) (value : float) :
  (is_badge "badge-blue" (_format_pct fmt1 value) <-> exists s, value = S754_zero s) /\
  (is_badge "badge-green" (_format_pct fmt1 value) <-> flt f_0 value = true) /\
  (is_badge "badge-red" (_format_pct fmt1 value) <->
     flt value f_0 = true \/ value = S754_nan) /\
  ((exists s, value = S754_zero s) \/
   _format_pct fmt1 value =
     badge_html "badge-green" ("▲" +:+ " " +:+ fmt1 (fabs value) +:+ "%") \/
   _format_pct fmt1 value =
     badge_html "badge-red" ("▼" +:+ " " +:+ fmt1 (fabs value) +:+ "%")).
Proof.
  unfold is_badge.
  destruct (format_pct_cases fmt1 value) as [[Hz ->]|[[Hp ->]|[Hn ->]]].
  - repeat split; eauto.
    + intros [b Hb]. by apply badge_blue_green in Hb.
    + intros Hp. destruct Hz as [s ->]. done.
    + intros [b Hb]. by apply badge_blue_red in Hb.
    + intros [H| ->]; destruct Hz as [s Hs]; [|done]. by rewrite Hs in H.
  - repeat split; eauto.
    + intros [b Hb]. symmetry in Hb. by apply badge_blue_green in Hb.
    + intros [s ->]. done.
    + intros [b Hb]. by apply badge_green_red in Hb.
    + intros [H| ->]; [|done]. by destruct value as [[]|[]| |[] m e].
  - repeat split; eauto.
    + intros [b Hb]. symmetry in Hb. by apply badge_blue_red in Hb.
    + intros [s ->]. by destruct Hn.
    + intros [b Hb]. symmetry in Hb. by apply badge_green_red in Hb.
    + intros Hp. destruct Hn as [H| ->]; [|done].
      by destruct value as [[]|[]| |[] m e].
Qed.

(** ** The rows of the comparison table *)

Section ComparisonTable.
Context (fmt1 : float -> string) (current previous : gmap string (gmap string float)).

Lemma comparison_row_Some m :
  exists row,
    comparison_row fmt1 current previous m = Some row /\
    cr_market row = m /\
    cr_p_cur row = get (get (current !! m) ∅ !! "twap") f_0 /\
    cr_p_prev row = get (get (previous !! m) ∅ !! "twap") f_0 /\
    cr_v_cur row = get (get (current !! m) ∅ !! "total_volume_gwh") f_0 /\
    cr_v_prev row = get (get (previous !! m) ∅ !! "total_volume_gwh") f_0 /\
    cr_yoy_badge row = _format_pct fmt1 (yoy_change (cr_p_cur row) (cr_p_prev row)).
Proof.
  unfold comparison_row. cbv zeta. rewrite yoy_price_Some. cbn.
  eexists. split; [reflexivity|]. by repeat split.
Qed.

Lemma build_comparison_table_Some :
  exists r1 r2 r3,
    _build_comparison_table fmt1 current previous = Some [r1; r2; r3] /\
    comparison_row fmt1 current previous "DAM" = Some r1 /\
    comparison_row fmt1 current previous "GDAM" = Some r2 /\
    comparison_row fmt1 current previous "RTM" = Some r3.
Proof.
  destruct (comparison_row_Some "DAM") as (r1 & H1 & _).
  destruct (comparison_row_Some "GDAM") as (r2 & H2 & _).
  destruct (comparison_row_Some "RTM") as (r3 & H3 & _).
  exists r1, r2, r3. unfold _build_comparison_table. cbn [mapM].
  by rewrite H1, H2, H3.
Qed.

(** Every row of the table is the row of one of the three markets. *)
Lemma comparison_table_elem rows row :
  _build_comparison_table fmt1 current previous = Some rows -> row ∈ rows ->
  exists m, comparison_row fmt1 current previous m = Some row.
Proof.
  destruct build_comparison_table_Some as (r1 & r2 & r3 & -> & H1 & H2 & H3).
  intros [= <-]. rewrite !elem_of_cons, elem_of_nil.
  intros [->|[->|[->|[]]]]; eauto.
Qed.

Lemma comparison_row_fields m row :
  comparison_row fmt1 current previous m = Some row ->
  cr_market row = m /\
  cr_p_prev row = get (get (previous !! m) ∅ !! "twap") f_0 /\
  cr_v_prev row = get (get (previous !! m) ∅ !! "total_volume_gwh") f_0 /\
  cr_yoy_badge row = _format_pct fmt1 (yoy_change (cr_p_cur row) (cr_p_prev row)).
Proof.
  destruct (comparison_row_Some m) as (row' & -> & Hm & _ & Hp & _ & Hv & Hb).
  by intros [= <-].
Qed.

End ComparisonTable.

(** X12: [_build_comparison_table]: the table is built for all dictionaries
    (the guard keeps the division from failing) and has the rows DAM,
    GDAM, RTM in this order whatever they hold.  A market without a
    previous-year entry is shown with previous price and volume 0; a
    previous price that is not positive (absent, zero, negative, NaN)
    gives the neutral dash, and so does an unchanged price. *)
Theorem X12_comparison_table_no_baseline (fmt1 : float -> string)
    (current previous : gmap string (gmap string float)) :
  exists rows,
    _build_comparison_table fmt1 current previous = Some rows /\
    map cr_market rows = ["DAM"; "GDAM"; "RTM"] /\
    forall row, row ∈ rows ->
      (previous !! cr_market row = None ->
         cr_p_prev row = f_0 /\ cr_v_prev row = f_0) /\
      (flt f_0 (cr_p_prev row) = false ->
         cr_yoy_badge row = badge_html "badge-blue" "-") /\
      (flt f_0 (cr_p_prev row) = true -> cr_p_prev row <> S754_infinity false ->
         cr_p_cur row = cr_p_prev row ->
         cr_yoy_badge row = badge_html "badge-blue" "-").
Proof.
  destruct (build_comparison_table_Some fmt1 current previous)
    as (r1 & r2 & r3 & Ht & H1 & H2 & H3).
  exists [r1; r2; r3]. split; [exact Ht|]. split.
  - apply comparison_row_fields in H1 as [E1 _], H2 as [E2 _], H3 as [E3 _].
    cbn [map]. by rewrite E1, E2, E3.
  - intros row Hrow.
    destruct (comparison_table_elem _ _ _ _ row Ht Hrow) as [m Hm].
    apply comparison_row_fields in Hm as (-> & Hp & Hv & ->).
    split; [|split].
    + intros Hnone. rewrite Hp, Hv, Hnone. done.
    + intros H. by rewrite yoy_change_default.
    + intros Hpos Hinf ->. by rewrite yoy_change_same.
Qed.

(** X13: [_build_comparison_table]: the arrow tells the direction.  A green
    badge is shown only when the current price is above a positive
    previous price; a red badge, when the current price is a number and
    the previous price finite, only when the current price is below
    it. *)
Theorem X13_comparison_table_arrow (fmt1 : float -> string)
    (current previous : gmap string (gmap string float))
    (rows : list ComparisonRow) (row : ComparisonRow) :
  _build_comparison_table fmt1 current previous = Some rows -> row ∈ rows ->
  is_float (cr_p_cur row) -> is_float (cr_p_prev row) ->
  (is_badge "badge-green" (cr_yoy_badge row) ->
     flt f_0 (cr_p_prev row) = true /\ flt (cr_p_prev row) (cr_p_cur row) = true) /\
  (is_badge "badge-red" (cr_yoy_badge row) ->
     cr_p_cur row <> S754_nan -> cr_p_prev row <> S754_infinity false ->
     flt f_0 (cr_p_prev row) = true /\ flt (cr_p_cur row) (cr_p_prev row) = true).
Proof.
  intros Ht Hrow. destruct (comparison_table_elem _ _ _ _ row Ht Hrow) as [m Hm].
  apply comparison_row_fields in Hm as (_ & _ & _ & ->).
  set (p_cur := cr_p_cur _). set (p_prev := cr_p_prev _). intros Hc Hp.
  destruct (format_pct_cases fmt1 (yoy_change p_cur p_prev))
    as [[_ ->]|[[H%flt_pos ->]|[H ->]]].
  - split; intros [b Hb]; [by apply badge_blue_green in Hb|by apply badge_blue_red in Hb].
  - split.
    + intros _. by apply (yoy_change_sign p_cur p_prev false).
    + intros [b Hb]. by apply badge_green_red in Hb.
  - split.
    + intros [b Hb]. symmetry in Hb. by apply badge_green_red in Hb.
    + intros _ Hnan Hinf. destruct H as [H%flt_neg|H].
      * by apply (yoy_change_sign p_cur p_prev true).
      * apply yoy_change_nan in H. by destruct H.
Qed.

Lemma X13_comparison_table_arrow_witness :
  exists rows row,
    _build_comparison_table fmt_sample dashboard_current dashboard_previous = Some rows /\
    row ∈ rows /\
    is_float (cr_p_cur row) /\ is_float (cr_p_prev row) /\
    is_badge "badge-green" (cr_yoy_badge row) /\
    flt (cr_p_prev row) (cr_p_cur row) = true.
Proof.
  destruct (build_comparison_table_Some fmt_sample dashboard_current dashboard_previous)
    as (r1 & r2 & r3 & Ht & H1 & _ & _).
  exists [r1; r2; r3], r1.
  assert (Hin : r1 ∈ [r1; r2; r3]) by left.
  assert (Hr1 : r1 = {| cr_market := "DAM"; cr_v_cur := float_of_Z 10;
                        cr_v_prev := float_of_Z 9; cr_p_cur := float_of_Z 5;
                        cr_p_prev := float_of_Z 4;
                        cr_yoy_badge := badge_html "badge-green" ("▲" +:+ " " +:+ "25.0" +:+ "%") |}).
  { vm_compute in H1. injection H1 as <-. vm_compute. reflexivity. }
  assert (Hc : is_float (cr_p_cur r1)) by (rewrite Hr1; vm_compute; reflexivity).
  assert (Hp : is_float (cr_p_prev r1)) by (rewrite Hr1; vm_compute; reflexivity).
  assert (Hg : is_badge "badge-green" (cr_yoy_badge r1))
    by (rewrite Hr1; by eexists).
  destruct (X13_comparison_table_arrow fmt_sample dashboard_current dashboard_previous
              _ r1 Ht Hin Hc Hp) as [Hgreen _].
  split; [exact Ht|]. split; [exact Hin|]. split; [exact Hc|]. split; [exact Hp|].
  split; [exact Hg|]. exact (proj2 (Hgreen Hg)).
Defined.

(** ** The KPI strip *)

Section StatsRow.
Context (market : string) (all_data : gmap string (gmap string float))
  (total_volume : float).

Lemma build_stats_row_Some :
  exists sr,
    _build_stats_row market all_data total_volume = Some sr /\
    sr_buy_bids sr = get (get (all_data !! market) ∅ !! "purchase_bid_total_mw") f_0 /\
    sr_sell_bids sr = get (get (all_data !! market) ∅ !! "sell_bid_total_mw") f_0 /\
    sr_bid_ratio sr = bid_ratio_of (sr_buy_bids sr) (sr_sell_bids sr) /\
    sr_ratio_color sr =
      (if flt f_1 (sr_bid_ratio sr) then "badge-green" else "badge-red") /\
    sr_ratio_label sr =
      (if flt f_1 (sr_bid_ratio sr) then "Buy-Side Dominant" else "Sell-Side Dominant").
Proof.
  unfold _build_stats_row, bid_ratio_of. cbv zeta.
  set (buy := get (_ !! "purchase_bid_total_mw") f_0).
  set (sell := get (_ !! "sell_bid_total_mw") f_0).
  destruct (flt f_0 sell) eqn:Hpos.
  - rewrite truediv_pos by done. cbn. eexists. split; [reflexivity|].
    cbn. by rewrite Hpos.
  - cbn. eexists. split; [reflexivity|]. cbn. by rewrite Hpos.
Qed.

End StatsRow.

(** X14: [_build_stats_row]: "Buy-Side Dominant" (with the green badge) is
    shown only when the sell bids are positive and the buy bids exceed
    them. *)
Theorem X14_stats_row_buy_side (market : string)
    (all_data : gmap string (gmap string float)) (total_volume : float)
    (sr : StatsRow) :
  _build_stats_row market all_data total_volume = Some sr ->
  is_float (sr_buy_bids sr) -> is_float (sr_sell_bids sr) ->
  sr_ratio_label sr = "Buy-Side Dominant" ->
  sr_ratio_color sr = "badge-green" /\
  flt f_0 (sr_sell_bids sr) = true /\
  flt (sr_sell_bids sr) (sr_buy_bids sr) = true.
Proof.
  destruct (build_stats_row_Some market all_data total_volume)
    as (sr' & -> & _ & _ & Hr & Hcol & Hlab).
  intros [= <-] Hb Hs. rewrite Hlab, Hcol, Hr. unfold bid_ratio_of.
  destruct (flt f_0 (sr_sell_bids sr')) eqn:Hpos; [|done].
  destruct (flt f_1 (fdiv _ _)) eqn:Hgt; [|done].
  intros _. repeat split. by apply fdiv_exceeds_one.
Qed.

Lemma X14_stats_row_buy_side_witness :
  exists sr,
    _build_stats_row "DAM" dashboard_current f_0 = Some sr /\
    is_float (sr_buy_bids sr) /\ is_float (sr_sell_bids sr) /\
    sr_ratio_label sr = "Buy-Side Dominant" /\
    flt (sr_sell_bids sr) (sr_buy_bids sr) = true.
Proof.
  destruct (build_stats_row_Some "DAM" dashboard_current f_0)
    as (sr & Hsr & Hbuy & Hsell & Hr & _ & Hlab).
  exists sr.
  assert (Hb : is_float (sr_buy_bids sr)) by (rewrite Hbuy; vm_compute; reflexivity).
  assert (Hs : is_float (sr_sell_bids sr)) by (rewrite Hsell; vm_compute; reflexivity).
  assert (Hl : sr_ratio_label sr = "Buy-Side Dominant")
    by (rewrite Hlab, Hr, Hbuy, Hsell; vm_compute; reflexivity).
  split; [exact Hsr|]. split; [exact Hb|]. split; [exact Hs|]. split; [exact Hl|].
  exact (proj2 (proj2 (X14_stats_row_buy_side "DAM" dashboard_current f_0 sr Hsr Hb Hs Hl))).
Defined.

(** X15: [_build_stats_row]: the strip is built for all dictionaries (the
    guard keeps the division from failing).  Without positive sell bids
    (none recorded, zero, negative, NaN, or no entry for the market) the
    ratio shown is 0 and the label "Sell-Side Dominant", whatever the
    buy bids; equal bids give the ratio 1 exactly and the same label. *)
Theorem X15_stats_row_sell_side (market : string)
    (all_data : gmap string (gmap string float)) (total_volume : float) :
  exists sr,
    _build_stats_row market all_data total_volume = Some sr /\
    (all_data !! market = None -> sr_sell_bids sr = f_0 /\ sr_buy_bids sr = f_0) /\
    (flt f_0 (sr_sell_bids sr) = false ->
       sr_bid_ratio sr = f_0 /\ sr_ratio_label sr = "Sell-Side Dominant" /\
       sr_ratio_color sr = "badge-red") /\
    (flt f_0 (sr_sell_bids sr) = true -> sr_sell_bids sr <> S754_infinity false ->
       sr_buy_bids sr = sr_sell_bids sr ->
       sr_bid_ratio sr = f_1 /\ sr_ratio_label sr = "Sell-Side Dominant" /\
       sr_ratio_color sr = "badge-red").
Proof.
  destruct (build_stats_row_Some market all_data total_volume)
    as (sr & Hsr & Hbuy & Hsell & Hr & Hcol & Hlab).
  exists sr. split; [exact Hsr|]. split; [|split].
  - intros Hnone. rewrite Hbuy, Hsell, Hnone. done.
  - intros Hpos. rewrite Hlab, Hcol, Hr. unfold bid_ratio_of. by rewrite Hpos.
  - intros Hpos Hinf Heq. rewrite Hlab, Hcol, Hr, Heq. unfold bid_ratio_of.
    rewrite Hpos. apply flt_pos in Hpos.
    destruct (sr_sell_bids sr) as [sy|[]| |sy my ey]; try done.
    by rewrite fdiv_diag.
Qed.
